(** * MDP-Web-Crawler: value iteration and policy iteration over a link graph

    A shallow embedding of [MDP_Project/Web_Crawler.py] and the properties of
    its model builder ([crawl_mdp], [build_mdp]) and of its two solvers
    ([value_iteration], [policy_iteration]).

    Conventions of the embedding.
    - Python floats are idealised: a finite float is an exact rational kept in
      lowest terms, and the special values that the code itself introduces
      ([float('-inf')]), that [float] returns on a reward tag beyond the range
      of a double, or that arithmetic on them yields (infinities, nan) are
      constructors of [num] with the IEEE rules for them.  Rounding, overflow
      in arithmetic and signed zeros are not modelled: every statement about
      finite values below is a statement about exact rational arithmetic.
    - A [dict] that is only looked up and assigned is a [gmap]; a [dict] that
      is iterated ([P[s][a]]) is an association list in insertion order.
    - A missing key raises [KeyError]; the [while True] loops take fuel, and a
      run that is still looping when the fuel is spent is [None]. *)

From Stdlib Require Import QArith Qabs Qround Lqa Ascii.
From stdpp Require Import gmap strings list fin_maps.

Open Scope Q_scope.

(** ** Numbers *)

Inductive num : Type :=
  | NaN
  | NegInf
  | PosInf
  | Fin (q : Q).

Definition Qltb (a b : Q) : bool :=
  match a ?= b with Lt => true | _ => false end.

(** [inf_times q] is the sign rule for [inf * q]. *)
Definition inf_times (pos : bool) (q : Q) : num :=
  match 0 ?= q with
  | Lt => if pos then PosInf else NegInf
  | Gt => if pos then NegInf else PosInf
  | Eq => NaN
  end.

Definition nadd (x y : num) : num :=
  match x, y with
  | NaN, _ | _, NaN => NaN
  | PosInf, NegInf | NegInf, PosInf => NaN
  | PosInf, _ | _, PosInf => PosInf
  | NegInf, _ | _, NegInf => NegInf
  | Fin a, Fin b => Fin (Qred (a + b))
  end.

Definition nsub (x y : num) : num :=
  match x, y with
  | NaN, _ | _, NaN => NaN
  | PosInf, PosInf | NegInf, NegInf => NaN
  | PosInf, _ | _, NegInf => PosInf
  | NegInf, _ | _, PosInf => NegInf
  | Fin a, Fin b => Fin (Qred (a - b))
  end.

Definition nmul (x y : num) : num :=
  match x, y with
  | NaN, _ | _, NaN => NaN
  | PosInf, PosInf | NegInf, NegInf => PosInf
  | PosInf, NegInf | NegInf, PosInf => NegInf
  | PosInf, Fin q | Fin q, PosInf => inf_times true q
  | NegInf, Fin q | Fin q, NegInf => inf_times false q
  | Fin a, Fin b => Fin (Qred (a * b))
  end.

Definition nabs (x : num) : num :=
  match x with
  | NaN => NaN
  | NegInf | PosInf => PosInf
  | Fin a => Fin (Qabs a)
  end.

(** [x < y]; every comparison with nan is false. *)
Definition nlt (x y : num) : bool :=
  match x, y with
  | NaN, _ | _, NaN => false
  | _, NegInf | PosInf, _ => false
  | NegInf, _ | _, PosInf => true
  | Fin a, Fin b => Qltb a b
  end.

(** [x > y]. *)
Definition ngt (x y : num) : bool := nlt y x.

(** Python's [max(a, b)]: [b] only when it is strictly greater. *)
Definition pymax (a b : num) : num := if ngt b a then b else a.

(** ** Exceptions *)

Inductive exn : Type := KeyError | IndexError | ZeroDivisionError | ValueError.

Inductive result (A : Type) : Type :=
  | Ok (a : A)
  | Raise (e : exn).
Arguments Ok {A} a.
Arguments Raise {A} e.

#[export] Instance result_ret : MRet result := fun _ a => Ok a.
#[export] Instance result_bind : MBind result := fun _ _ f m =>
  match m with Ok a => f a | Raise e => Raise e end.

(** [for x in xs: acc = body(acc, x)], stopping at the first exception. *)
Fixpoint for_each {A B : Type} (body : A → B → result A) (acc : A) (xs : list B)
  : result A :=
  match xs with
  | [] => Ok acc
  | x :: xs' => acc' ← body acc x; for_each body acc' xs'
  end.

(** [m[k]] on a dict. *)
Definition getitem `{Countable K} {A : Type} (m : gmap K A) (k : K) : result A :=
  match m !! k with Some v => Ok v | None => Raise KeyError end.

(** ** The MDP *)

(** A state is a page, named by its file. *)
Abbreviation state := string.
(** An action is the name of the link to click, or Python's [None]. *)
Abbreviation action := (option string).

(** A distribution [P[s][a]], in the insertion order of the dict. *)
Abbreviation dist := (list (string * Q)).

(** [d[k] = v] on an insertion-ordered dict: an existing key keeps its place. *)
Fixpoint dict_set (k : state) (v : Q) (d : dist) : dist :=
  match d with
  | [] => [(k, v)]
  | (k', v') :: d' =>
      if decide (k' = k) then (k, v) :: d' else (k', v') :: dict_set k v d'
  end.

Definition GAMMA : Q := 0.97.
Definition THRESHOLD : Q := 0.000001.
Definition ACTION_PENALTY : Q := -0.05.

Section Solver.

Variable pages : list state.
Variable P : gmap state (gmap action dist).
Variable R : gmap state (gmap action (gmap state Q)).
Variable actions : gmap state (list action).
Variable terminal_reward : gmap state (option num).
Variable gamma theta : Q.

(** The body of the loop over [s_prime] (lines 108-111, 147-150 and
    170-173): [value += prob * (reward + gamma * V[s_prime])]. *)
Definition backup_step (V : gmap state num) (s : state) (a : action)
    (value : num) (kv : state * Q) : result num :=
  let '(s_prime, prob) := kv in
  Rs ← getitem R s;
  Rsa ← getitem Rs a;
  reward ← getitem Rsa s_prime;
  v ← getitem V s_prime;
  Ok (nadd value (nmul (Fin prob) (nadd (Fin reward) (nmul (Fin gamma) v)))).

(** [value = 0] and the loop over the successors in [P[s][a]]. *)
Definition backup (V : gmap state num) (s : state) (a : action) : result num :=
  Ps ← getitem P s;
  d ← getitem Ps a;
  for_each (backup_step V s a) (Fin 0) d.

(** The loop over [actions[s]] (lines 103-114 and 165-177): the running
    maximum and the action that reached it. *)
Definition greedy_step (V : gmap state num) (s : state)
    (acc : num * action) (a : action) : result (num * action) :=
  value ← backup V s a;
  Ok (if ngt value acc.1 then (value, a) else acc).

Definition greedy (V : gmap state num) (s : state) : result (num * action) :=
  acts ← getitem actions s;
  for_each (greedy_step V s) (NegInf, None) acts.

(** *** Value iteration *)

Record vi_vars : Type := ViVars {
  vi_V : gmap state num;
  vi_policy : gmap state action;
  vi_delta : num;
}.

(** The body of [for s in pages] (lines 98-118). *)
Definition vi_visit (st : vi_vars) (s : state) : result vi_vars :=
  tr ← getitem terminal_reward s;
  match tr with
  | Some r =>
      Ok (ViVars (<[s := r]> (vi_V st)) (<[s := None]> (vi_policy st))
            (vi_delta st))
  | None =>
      '(max_value, best_action) ← greedy (vi_V st) s;
      old ← getitem (vi_V st) s;
      Ok (ViVars (<[s := max_value]> (vi_V st))
            (<[s := best_action]> (vi_policy st))
            (pymax (vi_delta st) (nabs (nsub old max_value))))
  end.

(** One pass of the [while True] body: [delta = 0] and the loop over pages. *)
Definition vi_sweep (V : gmap state num) (policy : gmap state action)
  : result vi_vars :=
  for_each vi_visit (ViVars V policy (Fin 0)) pages.

Fixpoint vi_loop (fuel : nat) (V : gmap state num) (policy : gmap state action)
  : option (result (gmap state num * gmap state action)) :=
  match fuel with
  | O => None
  | S fuel' =>
      match vi_sweep V policy with
      | Raise e => Some (Raise e)
      | Ok st =>
          if nlt (vi_delta st) (Fin theta)
          then Some (Ok (vi_V st, vi_policy st))
          else vi_loop fuel' (vi_V st) (vi_policy st)
      end
  end.

(** [V = {s: 0.0 for s in pages}]. *)
Definition zero_values : gmap state num :=
  list_to_map ((fun s => (s, Fin 0)) <$> pages).

Definition value_iteration (fuel : nat)
  : option (result (gmap state num * gmap state action)) :=
  vi_loop fuel zero_values ∅.

(** *** Policy iteration *)

(** The initialisation loop (lines 129-134). *)
Definition pi_init_visit (st : gmap state num * gmap state action) (s : state)
  : result (gmap state num * gmap state action) :=
  tr ← getitem terminal_reward s;
  match tr with
  | Some r => Ok (<[s := r]> st.1, <[s := None]> st.2)
  | None =>
      acts ← getitem actions s;
      match acts with
      | [] => Raise IndexError
      | a :: _ => Ok (st.1, <[s := a]> st.2)
      end
  end.

Definition pi_init : result (gmap state num * gmap state action) :=
  for_each pi_init_visit (zero_values, ∅) pages.

(** Policy evaluation, the body of [for s in pages] (lines 140-153). *)
Definition pi_eval_visit (policy : gmap state action)
    (st : gmap state num * num) (s : state) : result (gmap state num * num) :=
  tr ← getitem terminal_reward s;
  match tr with
  | Some _ => Ok st
  | None =>
      a ← getitem policy s;
      old_v ← getitem st.1 s;
      new_v ← backup st.1 s a;
      Ok (<[s := new_v]> st.1, pymax st.2 (nabs (nsub old_v new_v)))
  end.

Definition pi_eval_sweep (policy : gmap state action) (V : gmap state num)
  : result (gmap state num * num) :=
  for_each (pi_eval_visit policy) (V, Fin 0) pages.

(** The inner [while True] (lines 137-156). *)
Fixpoint pi_evaluate (fuel : nat) (policy : gmap state action)
    (V : gmap state num) : option (result (gmap state num)) :=
  match fuel with
  | O => None
  | S fuel' =>
      match pi_eval_sweep policy V with
      | Raise e => Some (Raise e)
      | Ok (V', delta) =>
          if nlt delta (Fin theta) then Some (Ok V')
          else pi_evaluate fuel' policy V'
      end
  end.

(** Policy improvement, the body of [for s in pages] (lines 161-181). *)
Definition pi_improve_visit (V : gmap state num)
    (st : gmap state action * bool) (s : state)
  : result (gmap state action * bool) :=
  tr ← getitem terminal_reward s;
  match tr with
  | Some _ => Ok st
  | None =>
      old_action ← getitem st.1 s;
      '(_, best_action) ← greedy V s;
      Ok (<[s := best_action]> st.1,
          if decide (best_action = old_action) then st.2 else false)
  end.

Definition pi_improve (V : gmap state num) (policy : gmap state action)
  : result (gmap state action * bool) :=
  for_each (pi_improve_visit V) (policy, true) pages.

(** The outer [while True] (lines 136-184); [inner] is the fuel of each
    policy evaluation. *)
Fixpoint pi_loop (fuel inner : nat) (V : gmap state num)
    (policy : gmap state action)
  : option (result (gmap state num * gmap state action)) :=
  match fuel with
  | O => None
  | S fuel' =>
      match pi_evaluate inner policy V with
      | None => None
      | Some (Raise e) => Some (Raise e)
      | Some (Ok V') =>
          match pi_improve V' policy with
          | Raise e => Some (Raise e)
          | Ok (policy', policy_stable) =>
              if policy_stable then Some (Ok (V', policy'))
              else pi_loop fuel' inner V' policy'
          end
      end
  end.

Definition policy_iteration (fuel inner : nat)
  : option (result (gmap state num * gmap state action)) :=
  match pi_init with
  | Raise e => Some (Raise e)
  | Ok (V, policy) => pi_loop fuel inner V policy
  end.

End Solver.

(** ** The model builder *)

Record mdp : Type := Mdp {
  mdp_P : gmap state (gmap action dist);
  mdp_R : gmap state (gmap action (gmap state Q));
  mdp_actions : gmap state (list action);
}.

(** [list(out - {a})]. *)
Definition others_of (out : list state) (a : state) : list state :=
  filter (fun l => l ≠ a) out.

(** The distribution of the action that clicks [a] on page [s]
    (lines 72-80). *)
Definition make_dist (s : state) (out : list state) (a : state) : result dist :=
  let others := others_of out a in
  if decide (length out = 1%nat) then
    Ok (dict_set s 0.10 (dict_set a 0.90 []))
  else
    match others with
    | [] => Raise ZeroDivisionError
    | _ =>
        let share := Qred (0.30 / inject_Z (Z.of_nat (length others))) in
        Ok (foldl (fun d s2 => dict_set s2 share d)
              (dict_set s 0.10 (dict_set a 0.60 [])) others)
    end.

(** [{s2: ACTION_PENALTY for s2 in dist}]. *)
Definition penalties (d : dist) : gmap state Q :=
  list_to_map ((fun kv => (kv.1, ACTION_PENALTY)) <$> d).

(** The body of [for a in out] (lines 70-83), on the entries of page [s]. *)
Definition add_link (s : state) (out : list state)
    (acc : gmap action dist * gmap action (gmap state Q) * list action)
    (a : state)
  : result (gmap action dist * gmap action (gmap state Q) * list action) :=
  d ← make_dist s out a;
  Ok (<[Some a := d]> acc.1.1, <[Some a := penalties d]> acc.1.2,
      acc.2 ++ [Some a]).

(** The entries of a page with the single no-op action (lines 56-58 and,
    again, 63-65): [actions[s]], [P[s]] and [R[s]]. *)
Definition noop_entries (s : state)
  : gmap action dist * gmap action (gmap state Q) * list action :=
  ({[ None := [(s, 1)] ]}, {[ None := {[ s := 0 ]} ]}, [None]).

(** What the body of [for s in pages] (lines 51-83) puts in [P[s]], [R[s]]
    and [actions[s]]. *)
Definition page_entries (links : gmap state (list state))
    (terminal_reward : gmap state (option num)) (s : state)
  : result (gmap action dist * gmap action (gmap state Q) * list action) :=
  out ← getitem links s;
  tr ← getitem terminal_reward s;
  match tr with
  | Some _ => Ok (noop_entries s)
  | None =>
      match out with
      | [] => Ok (noop_entries s)
      | _ => for_each (add_link s out) (∅, ∅, []) out
      end
  end.

Definition build_page (links : gmap state (list state))
    (terminal_reward : gmap state (option num)) (m : mdp) (s : state)
  : result mdp :=
  '(Ps, Rs, acts) ← page_entries links terminal_reward s;
  Ok (Mdp (<[s := Ps]> (mdp_P m)) (<[s := Rs]> (mdp_R m))
        (<[s := acts]> (mdp_actions m))).

Definition build_mdp (pages : list state) (links : gmap state (list state))
    (terminal_reward : gmap state (option num)) : result mdp :=
  for_each (build_page links terminal_reward) (Mdp ∅ ∅ ∅) pages.

(** ** The crawler *)

(** [fn.endswith(suffix)]. *)
Definition endswith (fn suffix : string) : bool :=
  let n := String.length fn in
  let k := String.length suffix in
  (k <=? n)%nat && String.eqb (String.substring (n - k) k fn) suffix.

(** A decimal digit and its value. *)
Definition is_digit (c : Ascii.ascii) : bool :=
  (48 <=? Ascii.nat_of_ascii c)%nat && (Ascii.nat_of_ascii c <=? 57)%nat.

Definition digit_value (c : Ascii.ascii) : Z :=
  Z.of_nat (Ascii.nat_of_ascii c - 48).

(** The digits at the front of [s]: their value appended to [acc], their
    number added to [n], and what follows them. *)
Fixpoint read_digits (s : string) (acc : Z) (n : nat) : Z * nat * string :=
  match s with
  | String c rest =>
      if is_digit c then read_digits rest (10 * acc + digit_value c) (S n)
      else (acc, n, s)
  | EmptyString => (acc, n, s)
  end.

(** From this magnitude on a decimal rounds to a double beyond the largest
    one, [2^1024 - 2^971]. *)
Definition DBL_OVERFLOW : Q := inject_Z (2 ^ 1024 - 2 ^ 970).

(** [float(t)] on the strings that the reward pattern [[-0-9.]+] captures:
    an optional minus sign, digits with at most one point among them and at
    least one digit; anything else raises [ValueError].  A magnitude out of
    the range of a double gives an infinity; a finite value is kept exact. *)
Definition py_float (t : string) : result num :=
  let '(negative, body) :=
    match t with
    | String "-"%char rest => (true, rest)
    | _ => (false, t)
    end in
  let '(int_part, n1, rest) := read_digits body 0 0 in
  let '(mantissa, n2, rest') :=
    match rest with
    | String "."%char r => read_digits r int_part 0
    | _ => (int_part, 0%nat, rest)
    end in
  match rest' with
  | EmptyString =>
      if (0 <? n1 + n2)%nat then
        let q := Qred (inject_Z mantissa / inject_Z (10 ^ Z.of_nat n2)) in
        if Qle_bool DBL_OVERFLOW q
        then Ok (if negative then NegInf else PosInf)
        else Ok (Fin (if negative then Qred (- q) else q))
      else Raise ValueError
  | _ => Raise ValueError
  end.

(** The body of [for fn in pages] (lines 29-39), on [links] and
    [terminal_reward]. *)
Definition crawl_page (pages : list state) (hrefs : string → list string)
    (reward_tag : string → option string)
    (acc : gmap state (list state) * gmap state (option num)) (fn : state)
  : result (gmap state (list state) * gmap state (option num)) :=
  let out := remove_dups (hrefs fn) in
  let links := <[fn := filter (fun l => l ∈ pages) out]> acc.1 in
  match reward_tag fn with
  | Some t => r ← py_float t; Ok (links, <[fn := Some r]> acc.2)
  | None => Ok (links, <[fn := None]> acc.2)
  end.

(** [crawl_mdp] on a directory whose listing is [listing] and whose files can
    all be read.  The two regular expressions are taken as given: [hrefs fn]
    is what [re.findall] returns on the text of [fn], and [reward_tag fn] is
    the group that [re.search] captures there, if the reward pattern
    matches. *)
Definition crawl_mdp (listing : list string) (hrefs : string → list string)
    (reward_tag : string → option string)
  : result (list state * gmap state (list state) * gmap state (option num)) :=
  let pages := remove_dups (filter (fun fn => endswith fn ".html" = true) listing) in
  '(links, terminal_reward) ←
    for_each (crawl_page pages hrefs reward_tag) (∅, ∅) pages;
  Ok (pages, links, terminal_reward).

(** * Properties *)

(** ** Arithmetic of [num] on finite values *)

Lemma Qltb_lt (a b : Q) : Qltb a b = true ↔ a < b.
Proof.
  unfold Qltb. rewrite Qlt_alt. destruct (a ?= b); split; congruence.
Qed.

Lemma Qltb_ge (a b : Q) : Qltb a b = false ↔ b <= a.
Proof.
  rewrite <- not_true_iff_false, Qltb_lt. split; [apply Qnot_lt_le | apply Qle_not_lt].
Qed.

Lemma ngt_Fin (a b : Q) : ngt (Fin a) (Fin b) = true ↔ b < a.
Proof. apply Qltb_lt. Qed.

Lemma ngt_Fin_NegInf (a : Q) : ngt (Fin a) NegInf = true.
Proof. reflexivity. Qed.

(** ** Exceptions and loops *)

Lemma bind_Ok {A B : Type} (m : result A) (f : A → result B) (b : B) :
  m ≫= f = Ok b ↔ ∃ a, m = Ok a ∧ f a = Ok b.
Proof.
  destruct m as [a|e]; simpl; split.
  - eauto.
  - intros (a' & [= <-] & ?). done.
  - done.
  - intros (? & ? & ?). done.
Qed.

Lemma getitem_Ok `{Countable K} {A : Type} (m : gmap K A) (k : K) (v : A) :
  getitem m k = Ok v ↔ m !! k = Some v.
Proof. unfold getitem. destruct (m !! k); split; congruence. Qed.

Lemma for_each_app {A B : Type} (body : A → B → result A) (acc : A)
    (xs ys : list B) :
  for_each body acc (xs ++ ys) = for_each body acc xs ≫= fun acc' => for_each body acc' ys.
Proof.
  revert acc. induction xs as [|x xs IH]; intros acc; simpl; [done|].
  destruct (body acc x); simpl; [apply IH | done].
Qed.

(** An invariant of the loop body is an invariant of the loop. *)
Lemma for_each_ind {A B : Type} (body : A → B → result A) (I : A → Prop)
    (xs : list B) (acc acc' : A) :
  (∀ a x a', x ∈ xs → I a → body a x = Ok a' → I a') →
  I acc → for_each body acc xs = Ok acc' → I acc'.
Proof.
  revert acc. induction xs as [|x xs IH]; intros acc Hstep HI; simpl.
  - intros [= <-]. done.
  - intros (a1 & H1 & H2)%bind_Ok. eapply IH; [| |exact H2].
    + intros a y a' Hy. apply Hstep. by right.
    + eapply Hstep; [left | exact HI | exact H1].
Qed.

(** ** Unfolding the loop bodies *)

Section Visits.

Context (P : gmap state (gmap action dist))
        (R : gmap state (gmap action (gmap state Q)))
        (actions : gmap state (list action))
        (terminal_reward : gmap state (option num)) (gamma : Q).

Lemma getitem_lookup `{Countable K} {A : Type} (m : gmap K A) (k : K) (v : A) :
  m !! k = Some v → getitem m k = Ok v.
Proof. apply getitem_Ok. Qed.

Lemma vi_visit_terminal (st : vi_vars) (s : state) (r : num) :
  terminal_reward !! s = Some (Some r) →
  vi_visit P R actions terminal_reward gamma st s
  = Ok (ViVars (<[s := r]> (vi_V st)) (<[s := None]> (vi_policy st))
          (vi_delta st)).
Proof. intros H. unfold vi_visit. by rewrite (getitem_lookup _ _ _ H). Qed.

Lemma vi_visit_decision (st : vi_vars) (s : state) :
  terminal_reward !! s = Some None →
  vi_visit P R actions terminal_reward gamma st s
  = ('(max_value, best_action) ← greedy P R actions gamma (vi_V st) s;
     old ← getitem (vi_V st) s;
     Ok (ViVars (<[s := max_value]> (vi_V st))
           (<[s := best_action]> (vi_policy st))
           (pymax (vi_delta st) (nabs (nsub old max_value))))).
Proof. intros H. unfold vi_visit. by rewrite (getitem_lookup _ _ _ H). Qed.

Lemma pi_eval_visit_terminal policy (st : gmap state num * num) (s : state) (r : num) :
  terminal_reward !! s = Some (Some r) →
  pi_eval_visit P R terminal_reward gamma policy st s = Ok st.
Proof. intros H. unfold pi_eval_visit. by rewrite (getitem_lookup _ _ _ H). Qed.

Lemma pi_eval_visit_decision policy (st : gmap state num * num) (s : state) :
  terminal_reward !! s = Some None →
  pi_eval_visit P R terminal_reward gamma policy st s
  = (a ← getitem policy s;
     old_v ← getitem st.1 s;
     new_v ← backup P R gamma st.1 s a;
     Ok (<[s := new_v]> st.1, pymax st.2 (nabs (nsub old_v new_v)))).
Proof. intros H. unfold pi_eval_visit. by rewrite (getitem_lookup _ _ _ H). Qed.

Lemma pi_improve_visit_terminal V (st : gmap state action * bool) (s : state) (r : num) :
  terminal_reward !! s = Some (Some r) →
  pi_improve_visit P R actions terminal_reward gamma V st s = Ok st.
Proof. intros H. unfold pi_improve_visit. by rewrite (getitem_lookup _ _ _ H). Qed.

Lemma pi_improve_visit_decision V (st : gmap state action * bool) (s : state) :
  terminal_reward !! s = Some None →
  pi_improve_visit P R actions terminal_reward gamma V st s
  = (old_action ← getitem st.1 s;
     '(_, best_action) ← greedy P R actions gamma V s;
     Ok (<[s := best_action]> st.1,
         if decide (best_action = old_action) then st.2 else false)).
Proof. intros H. unfold pi_improve_visit. by rewrite (getitem_lookup _ _ _ H). Qed.

End Visits.

(** ** Tie-breaking: the first maximiser wins *)

(** [a] is the first action of [acts] whose value [q a] is maximal. *)
Definition first_max (acts : list action) (q : action → Q) (a : action) : Prop :=
  ∃ l1 l2, acts = l1 ++ a :: l2 ∧
    (∀ b, b ∈ l1 → q b < q a) ∧ (∀ b, b ∈ l2 → q b <= q a).

Section Greedy.

Context (P : gmap state (gmap action dist))
        (R : gmap state (gmap action (gmap state Q)))
        (actions : gmap state (list action)) (gamma : Q)
        (V : gmap state num) (s : state) (q : action → Q).

Lemma greedy_step_Fin (x v : Q) (a0 b : action) :
  backup P R gamma V s b = Ok (Fin v) →
  greedy_step P R gamma V s (Fin x, a0) b
  = Ok (if Qltb x v then (Fin v, b) else (Fin x, a0)).
Proof. intros Hb. unfold greedy_step. rewrite Hb. reflexivity. Qed.

(** The loop started on a finite running maximum either keeps it or moves to
    the first strictly larger maximiser. *)
Lemma greedy_loop_from_Fin (acts : list action) (x : Q) (a0 : action)
    (m : num) (a : action) :
  (∀ b, b ∈ acts → backup P R gamma V s b = Ok (Fin (q b))) →
  for_each (greedy_step P R gamma V s) (Fin x, a0) acts = Ok (m, a) →
  (m = Fin x ∧ a = a0 ∧ ∀ b, b ∈ acts → q b <= x) ∨
  (m = Fin (q a) ∧ x < q a ∧ first_max acts q a).
Proof.
  revert x a0. induction acts as [|b acts IH]; intros x a0 Hq.
  - intros [= <- <-]. left. repeat split. intros b Hb. by apply elem_of_nil in Hb.
  - cbn [for_each]. rewrite (greedy_step_Fin x (q b)) by (apply Hq; left).
    assert (Hq' : ∀ c, c ∈ acts → backup P R gamma V s c = Ok (Fin (q c)))
      by (intros c Hc; apply Hq; by right).
    destruct (Qltb x (q b)) eqn:Hcmp; intros Hrest; cbn in Hrest.
    + apply Qltb_lt in Hcmp.
      destruct (IH _ _ Hq' Hrest) as [(-> & -> & Hle)|(-> & Hlt & l1 & l2 & -> & H1 & H2)].
      * right. repeat split; [done|]. exists [], acts. repeat split; [|done].
        intros c Hc. by apply elem_of_nil in Hc.
      * right. repeat split; [lra|]. exists (b :: l1), l2. repeat split; [|done].
        intros c [->|Hc]%elem_of_cons; [done | by apply H1].
    + apply Qltb_ge in Hcmp.
      destruct (IH _ _ Hq' Hrest) as [(-> & -> & Hle)|(-> & Hlt & l1 & l2 & -> & H1 & H2)].
      * left. repeat split.
        intros c [->|Hc]%elem_of_cons; [done | by apply Hle].
      * right. repeat split; [done|]. exists (b :: l1), l2. repeat split; [|done].
        intros c [->|Hc]%elem_of_cons; [lra | by apply H1].
Qed.

(** The whole loop, from [max_value = float('-inf')] and [best_action = None]. *)
Lemma greedy_first_max (acts : list action) (m : num) (a : action) :
  actions !! s = Some acts → acts ≠ [] →
  (∀ b, b ∈ acts → backup P R gamma V s b = Ok (Fin (q b))) →
  greedy P R actions gamma V s = Ok (m, a) →
  m = Fin (q a) ∧ first_max acts q a.
Proof.
  intros Hacts Hne Hq. unfold greedy, getitem. rewrite Hacts.
  destruct acts as [|b acts]; [done|]. cbn [mbind result_bind for_each].
  unfold greedy_step at 2. rewrite (Hq b) by left. cbn.
  intros Hloop.
  assert (Hq' : ∀ c, c ∈ acts → backup P R gamma V s c = Ok (Fin (q c)))
    by (intros c Hc; apply Hq; by right).
  destruct (greedy_loop_from_Fin _ _ _ _ _ Hq' Hloop)
    as [(-> & -> & Hle)|(-> & Hlt & l1 & l2 & -> & H1 & H2)].
  - split; [done|]. exists [], acts. repeat split; [|done].
    intros c Hc. by apply elem_of_nil in Hc.
  - split; [done|]. exists (b :: l1), l2. repeat split; [|done].
    intros c [->|Hc]%elem_of_cons; [done | by apply H1].
Qed.

End Greedy.

(** *** Values that are not finite *)

(** [a] is the first action of [acts] whose value [v a] is maximal, and that
    value is above [-inf]: every earlier action is strictly worse or nan,
    and no later action is strictly better. *)
Definition first_best (acts : list action) (v : action → num) (a : action)
  : Prop :=
  ∃ l1 l2, acts = l1 ++ a :: l2 ∧ ngt (v a) NegInf = true ∧
    (∀ b, b ∈ l1 → ngt (v a) (v b) = true ∨ v b = NaN) ∧
    (∀ b, b ∈ l2 → ngt (v b) (v a) = false).

Lemma ngt_trans (x y z : num) :
  ngt x y = true → ngt y z = true → ngt x z = true.
Proof.
  destruct x as [| | |x], y as [| | |y], z as [| | |z]; try done.
  unfold ngt, nlt. rewrite !Qltb_lt. lra.
Qed.

Lemma ngt_le_trans (x y z : num) :
  y ≠ NaN → z ≠ NaN → ngt x z = true → ngt y z = false → ngt x y = true.
Proof.
  destruct x as [| | |x], y as [| | |y], z as [| | |z]; try done.
  unfold ngt, nlt. rewrite !Qltb_lt, Qltb_ge. lra.
Qed.

Lemma ngt_not_NaN (x y : num) : ngt x y = true → x ≠ NaN.
Proof. by destruct x, y. Qed.

Section GreedyNum.

Context (P : gmap state (gmap action dist))
        (R : gmap state (gmap action (gmap state Q)))
        (actions : gmap state (list action)) (gamma : Q)
        (V : gmap state num) (s : state) (v : action → num).

(** The loop started on a running maximum that is not nan either keeps it,
    or moves to the first action that beats it and is not beaten later. *)
Lemma greedy_loop_from (acts : list action) (m0 : num) (a0 : action)
    (m : num) (a : action) :
  m0 ≠ NaN →
  (∀ b, b ∈ acts → backup P R gamma V s b = Ok (v b)) →
  for_each (greedy_step P R gamma V s) (m0, a0) acts = Ok (m, a) →
  (m = m0 ∧ a = a0 ∧ ∀ b, b ∈ acts → ngt (v b) m0 = false) ∨
  (m = v a ∧ ngt (v a) m0 = true ∧
   ∃ l1 l2, acts = l1 ++ a :: l2 ∧
     (∀ b, b ∈ l1 → ngt (v a) (v b) = true ∨ v b = NaN) ∧
     (∀ b, b ∈ l2 → ngt (v b) (v a) = false)).
Proof.
  revert m0 a0. induction acts as [|b acts IH]; intros m0 a0 Hm0 Hv.
  - intros [= <- <-]. left. repeat split. by intros b ?%elem_of_nil.
  - cbn [for_each]. unfold greedy_step at 2. rewrite (Hv b) by left.
    cbn [mbind result_bind fst].
    assert (Hv' : ∀ c, c ∈ acts → backup P R gamma V s c = Ok (v c))
      by (intros c Hc; apply Hv; by right).
    destruct (ngt (v b) m0) eqn:Hcmp; intros Hrest.
    + destruct (IH _ _ (ngt_not_NaN _ _ Hcmp) Hv' Hrest)
        as [(-> & -> & Hle)|(-> & Hgt & l1 & l2 & -> & H1 & H2)].
      * right. split; [done|]. split; [done|]. exists [], acts.
        split; [done|]. split; [by intros c ?%elem_of_nil | done].
      * right. split; [done|]. split; [by eapply ngt_trans|].
        exists (b :: l1), l2. split; [done|]. split; [|done].
        intros c [->|Hc]%elem_of_cons; [by left | by apply H1].
    + destruct (IH _ _ Hm0 Hv' Hrest)
        as [(-> & -> & Hle)|(-> & Hgt & l1 & l2 & -> & H1 & H2)].
      * left. split; [done|]. split; [done|].
        intros c [->|Hc]%elem_of_cons; [done | by apply Hle].
      * right. split; [done|]. split; [done|].
        exists (b :: l1), l2. split; [done|]. split; [|done].
        intros c [->|Hc]%elem_of_cons; [|by apply H1].
        destruct (v b) as [| | |q] eqn:Hb;
          [by right | left; by apply (ngt_le_trans _ _ m0)..].
Qed.

(** The whole loop, from [max_value = float('-inf')] and
    [best_action = None]. *)
Lemma greedy_first_best (acts : list action) (m : num) (a : action) :
  actions !! s = Some acts →
  (∀ b, b ∈ acts → backup P R gamma V s b = Ok (v b)) →
  greedy P R actions gamma V s = Ok (m, a) →
  (m = v a ∧ first_best acts v a) ∨
  (m = NegInf ∧ a = None ∧ ∀ b, b ∈ acts → ngt (v b) NegInf = false).
Proof.
  intros Hacts Hv. unfold greedy. rewrite (getitem_lookup _ _ _ Hacts).
  cbn [mbind result_bind]. intros Hloop.
  destruct (greedy_loop_from acts NegInf None m a ltac:(done) Hv Hloop)
    as [(-> & -> & Hle)|(-> & Hgt & l1 & l2 & -> & H1 & H2)].
  - by right.
  - left. split; [done|]. by exists l1, l2.
Qed.

End GreedyNum.

(** Two links to a terminal page whose reward is [-inf]. *)
Module NegInfTie.
Definition pages : list state := ["t"; "s"].
Definition P : gmap state (gmap action dist) :=
  {[ "s" := {[ Some "x" := [("t", 1)]; Some "y" := [("t", 1)] ]} ]}.
Definition R : gmap state (gmap action (gmap state Q)) :=
  {[ "s" := {[ Some "x" := {[ "t" := 0 ]}; Some "y" := {[ "t" := 0 ]} ]} ]}.
Definition actions : gmap state (list action) :=
  {[ "s" := [Some "x"; Some "y"]; "t" := [None] ]}.
Definition terminal_reward : gmap state (option num) :=
  {[ "s" := None; "t" := Some NegInf ]}.
Definition V : gmap state num := {[ "s" := NegInf; "t" := NegInf ]}.
End NegInfTie.

(** C6, as worded, fails when the maximal backed-up value is [-inf].  With
    a terminal page of reward [-inf] behind both links of [s], the two
    actions of [s] tie at the maximal value [-inf]; no value is greater than
    the initial [max_value], so [best_action] is never assigned:
    [value_iteration] returns [policy[s] = None], and the improvement step
    of [policy_iteration] stores [None] too, although the first action of
    the list that achieves the maximum is ["x"]. *)
Lemma tie_at_neg_inf_selects_none :
  NegInfTie.actions !! "s" = Some [Some "x"; Some "y"] ∧
  backup NegInfTie.P NegInfTie.R GAMMA NegInfTie.V "s" (Some "x") = Ok NegInf ∧
  backup NegInfTie.P NegInfTie.R GAMMA NegInfTie.V "s" (Some "y") = Ok NegInf ∧
  value_iteration NegInfTie.pages NegInfTie.P NegInfTie.R NegInfTie.actions
    NegInfTie.terminal_reward GAMMA THRESHOLD 2
  = Some (Ok (NegInfTie.V, {[ "s" := None; "t" := None ]})) ∧
  pi_improve_visit NegInfTie.P NegInfTie.R NegInfTie.actions
    NegInfTie.terminal_reward GAMMA NegInfTie.V
    ({[ "s" := Some "x"; "t" := None ]}, true) "s"
  = Ok ({[ "s" := None; "t" := None ]}, false).
Proof. repeat split; vm_compute; reflexivity. Qed.

(** C6, amended.  Tie-breaking is first-wins in both engines whenever some
    action has a backed-up value above [-inf].  At a non-terminal state [s]
    whose actions have the backed-up values [v b] under the values [V] being
    read, the action that a visit of [value_iteration]'s sweep stores in
    [policy[s]], and the action that [policy_iteration]'s improvement step
    stores there, is the first action of [actions[s]] whose value is
    maximal (every earlier action is strictly worse or nan, no later one is
    strictly better), if that value is above [-inf]; and it is [None] if no
    action has a value above [-inf]. *)
Theorem tie_break_first_wins
    (P : gmap state (gmap action dist))
    (R : gmap state (gmap action (gmap state Q)))
    (actions : gmap state (list action))
    (terminal_reward : gmap state (option num)) (gamma : Q)
    (V : gmap state num) (s : state) (acts : list action) (v : action → num) :
  terminal_reward !! s = Some None →
  actions !! s = Some acts →
  (∀ b, b ∈ acts → backup P R gamma V s b = Ok (v b)) →
  (∀ policy delta st',
     vi_visit P R actions terminal_reward gamma (ViVars V policy delta) s = Ok st' →
     (∃ a, vi_policy st' !! s = Some a ∧ vi_V st' !! s = Some (v a) ∧
           first_best acts v a) ∨
     (vi_policy st' !! s = Some None ∧ vi_V st' !! s = Some NegInf ∧
      ∀ b, b ∈ acts → ngt (v b) NegInf = false)) ∧
  (∀ policy stable policy' stable',
     pi_improve_visit P R actions terminal_reward gamma V (policy, stable) s
       = Ok (policy', stable') →
     (∃ a, policy' !! s = Some a ∧ first_best acts v a) ∨
     (policy' !! s = Some None ∧ ∀ b, b ∈ acts → ngt (v b) NegInf = false)).
Proof.
  intros Htr Hacts Hv. split.
  - intros policy delta st'. rewrite vi_visit_decision by done.
    cbn [vi_V vi_policy vi_delta].
    intros ([m a] & Hg & (old & _ & [= <-])%bind_Ok)%bind_Ok.
    cbn [vi_V vi_policy]. rewrite !lookup_insert_eq.
    destruct (greedy_first_best _ _ _ _ _ _ _ _ _ _ Hacts Hv Hg)
      as [[-> Hfirst]|(-> & -> & Hnone)]; [left; by exists a | by right].
  - intros policy stable policy' stable'. rewrite pi_improve_visit_decision by done.
    intros (old & _ & ([m a] & Hg & [= <- _])%bind_Ok)%bind_Ok.
    rewrite lookup_insert_eq.
    destruct (greedy_first_best _ _ _ _ _ _ _ _ _ _ Hacts Hv Hg)
      as [[-> Hfirst]|(-> & -> & Hnone)]; [left; by exists a | by right].
Qed.

(** A page with two links of equal worth: both lead to the terminal page. *)
Module TieExample.
Definition P : gmap state (gmap action dist) :=
  {[ "s" := {[ Some "x" := [("t", 1)]; Some "y" := [("t", 1)] ]} ]}.
Definition R : gmap state (gmap action (gmap state Q)) :=
  {[ "s" := {[ Some "x" := {[ "t" := 0 ]}; Some "y" := {[ "t" := 0 ]} ]} ]}.
Definition actions : gmap state (list action) :=
  {[ "s" := [Some "x"; Some "y"]; "t" := [None] ]}.
Definition terminal_reward : gmap state (option num) :=
  {[ "s" := None; "t" := Some (Fin 1) ]}.
Definition V : gmap state num := {[ "s" := Fin 0; "t" := Fin 1 ]}.
Definition v (_ : action) : num := Fin (1 # 2).
End TieExample.

Lemma tie_break_first_wins_witness :
  vi_visit TieExample.P TieExample.R TieExample.actions
    TieExample.terminal_reward (1 # 2) (ViVars TieExample.V ∅ (Fin 0)) "s"
  = Ok (ViVars {[ "s" := Fin (1 # 2); "t" := Fin 1 ]} {[ "s" := Some "x" ]}
          (Fin (1 # 2))) ∧
  ((∃ a, ({[ "s" := Some "x" ]} : gmap state action) !! "s" = Some a ∧
         first_best [Some "x"; Some "y"] TieExample.v a) ∨
   (({[ "s" := Some "x" ]} : gmap state action) !! "s" = Some None ∧
    ∀ b, b ∈ [Some "x"; Some "y"] → ngt (TieExample.v b) NegInf = false)).
Proof.
  assert (Hrun : vi_visit TieExample.P TieExample.R TieExample.actions
    TieExample.terminal_reward (1 # 2) (ViVars TieExample.V ∅ (Fin 0)) "s"
  = Ok (ViVars {[ "s" := Fin (1 # 2); "t" := Fin 1 ]} {[ "s" := Some "x" ]}
          (Fin (1 # 2)))) by (vm_compute; reflexivity).
  split; [exact Hrun|].
  assert (Hv : ∀ b, b ∈ [Some "x"; Some "y"] →
    backup TieExample.P TieExample.R (1 # 2) TieExample.V "s" b
    = Ok (TieExample.v b)).
  { intros b Hb. apply elem_of_cons in Hb as [->|Hb]; [vm_compute; reflexivity|].
    apply elem_of_cons in Hb as [->|Hb]; [vm_compute; reflexivity|].
    by apply elem_of_nil in Hb. }
  destruct (proj1 (tie_break_first_wins TieExample.P TieExample.R
      TieExample.actions TieExample.terminal_reward (1 # 2) TieExample.V "s"
      [Some "x"; Some "y"] TieExample.v eq_refl eq_refl Hv) _ _ _ Hrun)
    as [(a & Hp & _ & Hf)|(Hp & _ & Hnone)].
  - left. by exists a.
  - right. by split.
Defined.

(** ** Distributions built by [build_mdp] *)

Definition dist_sum (d : dist) : Q := foldr (fun kv acc => kv.2 + acc) 0 d.

(** Non-negative probabilities that sum to 1.0 within the tolerance 1e-9. *)
Definition is_distribution (d : dist) : Prop :=
  Forall (fun kv => 0 <= kv.2) d ∧ Qabs (dist_sum d - 1) <= 1 # 1000000000.

(** C2.  A page that links to itself does not get a distribution.  On the
    directory that holds the single file [a.html] whose only link is to
    [a.html] itself, [crawl_mdp] keeps the link, and [build_mdp] gives the
    page the action "click a.html" with [P = {a.html: 0.10}]: line 75 assigns
    [dist[a]] and [dist[s]] to one and the same key, so the 0.90 is
    overwritten and the probabilities sum to 0.1, not to 1.0. *)
Theorem build_mdp_self_link_not_distribution :
  ∃ pages links terminal_reward,
    crawl_mdp ["a.html"] (fun _ => ["a.html"]) (fun _ => None)
    = Ok (pages, links, terminal_reward) ∧
    pages = ["a.html"] ∧ links !! "a.html" = Some ["a.html"] ∧
    ∃ m, build_mdp pages links terminal_reward = Ok m ∧
         mdp_actions m !! "a.html" = Some [Some "a.html"] ∧
         mdp_P m !! "a.html" ≫= (.!! Some "a.html") = Some [("a.html", 0.10)] ∧
         dist_sum [("a.html", 0.10)] == 1 # 10 ∧
         ¬ is_distribution [("a.html", 0.10)].
Proof.
  eexists _, _, _. split; [vm_compute; reflexivity|].
  split; [done|]. split; [done|].
  eexists. split; [vm_compute; reflexivity|].
  split; [done|]. split; [done|]. split; [done|].
  intros [_ Hsum]. vm_compute in Hsum. by apply Hsum.
Qed.

(** ** What one visit changes *)

Section Frames.

Context (pages : list state)
        (P : gmap state (gmap action dist))
        (R : gmap state (gmap action (gmap state Q)))
        (actions : gmap state (list action))
        (terminal_reward : gmap state (option num)) (gamma theta : Q).

Local Abbreviation visit := (vi_visit P R actions terminal_reward gamma).
Local Abbreviation sweep := (vi_sweep pages P R actions terminal_reward gamma).
Local Abbreviation loop := (vi_loop pages P R actions terminal_reward gamma theta).

(** A visit of [x] assigns [V[x]] and [policy[x]] and nothing else. *)
Lemma vi_visit_frame (st st' : vi_vars) (x s : state) :
  visit st x = Ok st' → x ≠ s →
  vi_V st' !! s = vi_V st !! s ∧ vi_policy st' !! s = vi_policy st !! s.
Proof.
  unfold vi_visit. intros (tr & _ & Hv)%bind_Ok Hne.
  destruct tr as [r|].
  - injection Hv as <-. cbn. by rewrite !lookup_insert_ne.
  - apply bind_Ok in Hv as ([m a] & _ & (old & _ & [= <-])%bind_Ok).
    cbn. by rewrite !lookup_insert_ne.
Qed.

(** A property of [(V, policy)] that every visit keeps, and that a visit of
    [s] establishes from a property that every visit keeps, holds after any
    loop over pages that reaches [s]. *)
Lemma vi_for_each_establish (Ipre Ipost : gmap state num → gmap state action → Prop)
    (s : state) (l : list state) (st st' : vi_vars) :
  (∀ x a a', visit a x = Ok a' →
     Ipre (vi_V a) (vi_policy a) → Ipre (vi_V a') (vi_policy a')) →
  (∀ x a a', visit a x = Ok a' →
     Ipost (vi_V a) (vi_policy a) → Ipost (vi_V a') (vi_policy a')) →
  (∀ a a', visit a s = Ok a' →
     Ipre (vi_V a) (vi_policy a) → Ipost (vi_V a') (vi_policy a')) →
  for_each visit st l = Ok st' →
  Ipre (vi_V st) (vi_policy st) →
  s ∈ l ∨ Ipost (vi_V st) (vi_policy st) →
  Ipre (vi_V st') (vi_policy st') ∧ Ipost (vi_V st') (vi_policy st').
Proof.
  intros Hpre Hpost Hest. revert st. induction l as [|x l IH]; intros st; simpl.
  - intros [= <-] HI [Hin|HJ]; [by apply elem_of_nil in Hin | done].
  - intros (st1 & H1 & H2)%bind_Ok HI Hs. apply (IH st1 H2).
    + eapply Hpre; eauto.
    + destruct Hs as [[->|Hin]%elem_of_cons|HJ].
      * right. eapply Hest; eauto.
      * by left.
      * right. eapply Hpost; eauto.
Qed.

Lemma vi_loop_establish (Ipre Ipost : gmap state num → gmap state action → Prop)
    (s : state) (fuel : nat) V policy V' policy' :
  (∀ x a a', visit a x = Ok a' →
     Ipre (vi_V a) (vi_policy a) → Ipre (vi_V a') (vi_policy a')) →
  (∀ x a a', visit a x = Ok a' →
     Ipost (vi_V a) (vi_policy a) → Ipost (vi_V a') (vi_policy a')) →
  (∀ a a', visit a s = Ok a' →
     Ipre (vi_V a) (vi_policy a) → Ipost (vi_V a') (vi_policy a')) →
  s ∈ pages → Ipre V policy →
  loop fuel V policy = Some (Ok (V', policy')) →
  Ipost V' policy'.
Proof.
  intros Hpre Hpost Hest Hs. revert V policy.
  induction fuel as [|fuel IH]; intros V policy HI; simpl; [done|].
  destruct (sweep V policy) as [st|e] eqn:Hsweep; [|done].
  destruct (vi_for_each_establish Ipre Ipost s pages _ st Hpre Hpost Hest Hsweep)
    as [HI' HJ']; [done | by left |].
  destruct (nlt (vi_delta st) (Fin theta)).
  - intros [= <- <-]. done.
  - apply IH. done.
Qed.

End Frames.

Lemma zero_values_lookup (pages : list state) (s : state) :
  s ∈ pages → zero_values pages !! s = Some (Fin 0).
Proof.
  unfold zero_values. induction pages as [|x l IH]; [by intros ?%elem_of_nil|].
  intros Hs. cbn. destruct (decide (x = s)) as [->|Hne].
  - apply lookup_insert_eq.
  - rewrite lookup_insert_ne by done. apply IH.
    by apply elem_of_cons in Hs as [->|Hs].
Qed.

Lemma zero_values_lookup_inv (pages : list state) (s : state) (v : num) :
  zero_values pages !! s = Some v → s ∈ pages ∧ v = Fin 0.
Proof.
  unfold zero_values. induction pages as [|x l IH]; [done|]. cbn.
  destruct (decide (x = s)) as [->|Hne].
  - rewrite lookup_insert_eq. intros [= <-]. split; [left | done].
  - rewrite lookup_insert_ne by done. intros [? ?]%IH. split; [by right | done].
Qed.

(** ** A decision state with an empty action list *)

Section EmptyActions.

Context (pages : list state)
        (P : gmap state (gmap action dist))
        (R : gmap state (gmap action (gmap state Q)))
        (actions : gmap state (list action))
        (terminal_reward : gmap state (option num)) (gamma theta : Q).

Local Abbreviation visit := (vi_visit P R actions terminal_reward gamma).

Lemma greedy_no_actions (V : gmap state num) (s : state) :
  actions !! s = Some [] → greedy P R actions gamma V s = Ok (NegInf, None).
Proof. intros H. unfold greedy. by rewrite (getitem_lookup _ _ _ H). Qed.

Lemma vi_visit_no_actions (st : vi_vars) (s : state) (old : num) :
  terminal_reward !! s = Some None → actions !! s = Some [] →
  vi_V st !! s = Some old →
  visit st s
  = Ok (ViVars (<[s := NegInf]> (vi_V st)) (<[s := None]> (vi_policy st))
          (pymax (vi_delta st) (nabs (nsub old NegInf)))).
Proof.
  intros Htr Hacts Hold. rewrite vi_visit_decision by done.
  rewrite greedy_no_actions by done. cbn.
  by rewrite (getitem_lookup _ _ _ Hold).
Qed.

Lemma vi_visit_no_actions_inv (st st' : vi_vars) (s : state) :
  terminal_reward !! s = Some None → actions !! s = Some [] →
  visit st s = Ok st' →
  vi_V st' !! s = Some NegInf ∧ vi_policy st' !! s = Some None.
Proof.
  intros Htr Hacts. rewrite vi_visit_decision by done.
  rewrite greedy_no_actions by done. cbn.
  intros (old & _ & [= <-])%bind_Ok. cbn. by rewrite !lookup_insert_eq.
Qed.

(** Every page is terminal or is a decision state without actions. *)
Definition no_page_has_actions : Prop :=
  ∀ x, x ∈ pages →
    (∃ r, terminal_reward !! x = Some (Some r)) ∨
    (terminal_reward !! x = Some None ∧ actions !! x = Some []).

(** On such an input a loop over pages succeeds, leaves the decision states
    it visits at [-inf], and leaves [delta] alone when they were there
    already ([abs(-inf - -inf)] is nan, which [max] ignores). *)
Lemma vi_for_each_no_actions (l : list state) (st : vi_vars) :
  no_page_has_actions → l ⊆ pages →
  (∀ x, x ∈ pages → is_Some (vi_V st !! x)) →
  ∃ st', for_each visit st l = Ok st' ∧
    (∀ x, x ∈ pages → is_Some (vi_V st' !! x)) ∧
    (∀ x, terminal_reward !! x = Some None →
       x ∈ l ∨ vi_V st !! x = Some NegInf → vi_V st' !! x = Some NegInf) ∧
    ((∀ x, x ∈ l → terminal_reward !! x = Some None → vi_V st !! x = Some NegInf) →
     vi_delta st' = vi_delta st).
Proof.
  intros Hclass. revert st. induction l as [|x l IH]; intros st Hl Hdom.
  - exists st. split; [done|]. split; [done|]. split; [|done].
    intros x _ [Hx|Hx]; [by apply elem_of_nil in Hx | done].
  - assert (Hx : x ∈ pages) by (apply Hl; left).
    assert (Hl' : l ⊆ pages) by (intros y Hy; apply Hl; by right).
    destruct (Hclass x Hx) as [[r Hr]|[Htr Hacts]].
    + cbn [for_each]. rewrite (vi_visit_terminal _ _ _ _ _ st x r Hr).
      cbn [mbind result_bind].
      edestruct (IH (ViVars (<[x:=r]> (vi_V st)) (<[x:=None]> (vi_policy st))
                       (vi_delta st)) Hl') as (st' & Hrun & Hdom' & Hneg & Hdelta).
      { intros y Hy. cbn. destruct (decide (x = y)) as [->|Hne];
          [by rewrite lookup_insert_eq | rewrite lookup_insert_ne by done; auto]. }
      exists st'. split; [done|]. split; [done|]. split.
      * intros y Hy Hin. apply Hneg; [done|]. cbn.
        assert (x ≠ y) by congruence. rewrite lookup_insert_ne by done.
        destruct Hin as [[->|Hin]%elem_of_cons|Hin]; [done | by left | by right].
      * intros Hall. cbn in Hdelta. apply Hdelta. intros y Hy Hty.
        assert (x ≠ y) by congruence. rewrite lookup_insert_ne by done.
        apply Hall; [by right | done].
    + destruct (Hdom x Hx) as [old Hold]. cbn [for_each].
      rewrite (vi_visit_no_actions st x old Htr Hacts Hold). cbn [mbind result_bind].
      edestruct (IH (ViVars (<[x:=NegInf]> (vi_V st)) (<[x:=None]> (vi_policy st))
                       (pymax (vi_delta st) (nabs (nsub old NegInf)))) Hl')
        as (st' & Hrun & Hdom' & Hneg & Hdelta).
      { intros y Hy. cbn. destruct (decide (x = y)) as [->|Hne];
          [by rewrite lookup_insert_eq | rewrite lookup_insert_ne by done; auto]. }
      exists st'. split; [done|]. split; [done|]. split.
      * intros y Hy Hin. apply Hneg; [done|]. cbn.
        destruct (decide (x = y)) as [->|Hne]; [right; apply lookup_insert_eq|].
        rewrite lookup_insert_ne by done.
        destruct Hin as [[->|Hin]%elem_of_cons|Hin]; [done | by left | by right].
      * intros Hall. cbn in Hdelta. rewrite Hdelta.
        -- assert (old = NegInf) as ->
             by (specialize (Hall x ltac:(left) Htr); congruence).
           cbn. unfold pymax. by destruct (vi_delta st).
        -- intros y Hy Hty. destruct (decide (x = y)) as [->|Hne];
             [apply lookup_insert_eq|].
           rewrite lookup_insert_ne by done. apply Hall; [by right | done].
Qed.

End EmptyActions.

(** C9.  A decision state [s] with an empty action list raises nothing in
    [value_iteration]: a visit of [s] succeeds and stores [V[s] = -inf] and
    [policy[s] = None] (the loop over actions has no iteration, so
    [max_value] and [best_action] keep their initial values); every result
    that [value_iteration] returns has these two entries; and when no page
    has an action (each is terminal or such a state) it does return, within
    two sweeps, for any positive [theta]. *)
Theorem empty_action_list_gives_neg_inf
    (pages : list state)
    (P : gmap state (gmap action dist))
    (R : gmap state (gmap action (gmap state Q)))
    (actions : gmap state (list action))
    (terminal_reward : gmap state (option num)) (gamma theta : Q) (s : state) :
  s ∈ pages →
  terminal_reward !! s = Some None →
  actions !! s = Some [] →
  (∀ st old, vi_V st !! s = Some old →
     vi_visit P R actions terminal_reward gamma st s
     = Ok (ViVars (<[s := NegInf]> (vi_V st)) (<[s := None]> (vi_policy st))
             (pymax (vi_delta st) (nabs (nsub old NegInf))))) ∧
  (∀ fuel V policy,
     value_iteration pages P R actions terminal_reward gamma theta fuel
       = Some (Ok (V, policy)) →
     V !! s = Some NegInf ∧ policy !! s = Some None) ∧
  (0 < theta → no_page_has_actions pages actions terminal_reward →
   ∃ V policy,
     value_iteration pages P R actions terminal_reward gamma theta 2
       = Some (Ok (V, policy)) ∧
     V !! s = Some NegInf ∧ policy !! s = Some None).
Proof.
  intros Hs Htr Hacts.
  assert (Hret : ∀ fuel V policy,
     value_iteration pages P R actions terminal_reward gamma theta fuel
       = Some (Ok (V, policy)) →
     V !! s = Some NegInf ∧ policy !! s = Some None).
  { intros fuel V policy Hrun.
    apply (vi_loop_establish pages P R actions terminal_reward gamma theta
             (fun _ _ => True)
             (fun V policy => V !! s = Some NegInf ∧ policy !! s = Some None)
             s fuel (zero_values pages) ∅ V policy); try done.
    - intros x a a' Hv [HV Hp]. destruct (decide (x = s)) as [->|Hne].
      + eapply vi_visit_no_actions_inv; eauto.
      + destruct (vi_visit_frame _ _ _ _ _ _ _ _ _ Hv Hne) as [HV' Hp'].
        split; congruence.
    - intros a a' Hv _. eapply vi_visit_no_actions_inv; eauto. }
  split; [|split; [exact Hret|]].
  - intros st old Hold. by apply vi_visit_no_actions.
  - intros Htheta Hclass.
    enough (∃ V policy,
      value_iteration pages P R actions terminal_reward gamma theta 2
        = Some (Ok (V, policy))) as (V & policy & Hrun)
      by (exists V, policy; split; [done | by eapply Hret]).
    unfold value_iteration. cbn [vi_loop]. unfold vi_sweep.
    destruct (vi_for_each_no_actions pages P R actions terminal_reward gamma
                pages (ViVars (zero_values pages) ∅ (Fin 0)) Hclass)
      as (st1 & -> & Hdom1 & Hneg1 & _); [done| |].
    { intros x Hx. cbn. rewrite zero_values_lookup by done. eauto. }
    destruct (nlt (vi_delta st1) (Fin theta)); [eauto|].
    destruct (vi_for_each_no_actions pages P R actions terminal_reward gamma
                pages (ViVars (vi_V st1) (vi_policy st1) (Fin 0)) Hclass)
      as (st2 & -> & _ & _ & Hdelta2); [done|done|].
    rewrite Hdelta2.
    + cbn. apply Qltb_lt in Htheta. rewrite Htheta. eauto.
    + intros x Hx Hx'. cbn. apply Hneg1; [done | by left].
Qed.

(** One terminal page and one decision page without actions. *)
Module EmptyExample.
Definition pages : list state := ["s"; "t"].
Definition terminal_reward : gmap state (option num) :=
  {[ "s" := None; "t" := Some (Fin 1) ]}.
Definition actions : gmap state (list action) := {[ "s" := []; "t" := [None] ]}.
End EmptyExample.

Lemma empty_action_list_gives_neg_inf_witness :
  ∃ V policy,
    value_iteration EmptyExample.pages ∅ ∅ EmptyExample.actions
      EmptyExample.terminal_reward GAMMA THRESHOLD 2 = Some (Ok (V, policy)) ∧
    V !! "s" = Some NegInf ∧ policy !! "s" = Some None.
Proof.
  apply (empty_action_list_gives_neg_inf EmptyExample.pages ∅ ∅
           EmptyExample.actions EmptyExample.terminal_reward GAMMA THRESHOLD "s").
  - left.
  - reflexivity.
  - reflexivity.
  - reflexivity.
  - intros x Hx. apply elem_of_cons in Hx as [->|Hx]; [right; done|].
    apply elem_of_cons in Hx as [->|Hx]; [left; by exists (Fin 1)|].
    by apply elem_of_nil in Hx.
Defined.

(** ** Program points of the two engines *)

Section Points.

Context (pages : list state)
        (P : gmap state (gmap action dist))
        (R : gmap state (gmap action (gmap state Q)))
        (actions : gmap state (list action))
        (terminal_reward : gmap state (option num)) (gamma theta : Q).

Local Abbreviation visit := (vi_visit P R actions terminal_reward gamma).
Local Abbreviation sweep := (vi_sweep pages P R actions terminal_reward gamma).

(** The variables of [value_iteration] after [n] passes of its [while] body
    (whether or not the loop would have stopped before). *)
Fixpoint vi_sweeps (n : nat) (V : gmap state num) (policy : gmap state action)
  : result (gmap state num * gmap state action) :=
  match n with
  | O => Ok (V, policy)
  | S n' => st ← sweep V policy; vi_sweeps n' (vi_V st) (vi_policy st)
  end.

(** The variables of [policy_iteration] at any point after its
    initialisation loop: between two visits of policy evaluation or of
    policy improvement. *)
Inductive pi_reach : gmap state num → gmap state action → Prop :=
  | pi_reach_init V policy :
      pi_init pages actions terminal_reward = Ok (V, policy) →
      pi_reach V policy
  | pi_reach_eval V policy delta x V' delta' :
      pi_reach V policy → x ∈ pages →
      pi_eval_visit P R terminal_reward gamma policy (V, delta) x = Ok (V', delta') →
      pi_reach V' policy
  | pi_reach_improve V V0 policy stable x policy' stable' :
      pi_reach V policy → x ∈ pages →
      pi_improve_visit P R actions terminal_reward gamma V0 (policy, stable) x
        = Ok (policy', stable') →
      pi_reach V policy'.

(** [s] holds its terminal reward [r] and the no-op action. *)
Definition pinned (s : state) (r : num) (V : gmap state num)
    (policy : gmap state action) : Prop :=
  V !! s = Some r ∧ policy !! s = Some None.

(** The claim of terminal pinning for [value_iteration], as it is worded:
    at every point of every sweep. *)
Definition vi_pinned_at_every_point : Prop :=
  ∀ s r, s ∈ pages → terminal_reward !! s = Some (Some r) →
  ∀ n l1 l2 V policy st,
    pages = l1 ++ l2 →
    vi_sweeps n (zero_values pages) ∅ = Ok (V, policy) →
    for_each visit (ViVars V policy (Fin 0)) l1 = Ok st →
    pinned s r (vi_V st) (vi_policy st).

Lemma vi_visit_pins (s : state) (r : num) (st st' : vi_vars) :
  terminal_reward !! s = Some (Some r) →
  visit st s = Ok st' → pinned s r (vi_V st') (vi_policy st').
Proof.
  intros Htr. rewrite (vi_visit_terminal _ _ _ _ _ _ _ _ Htr). intros [= <-].
  split; apply lookup_insert_eq.
Qed.

Lemma vi_visit_keeps_pinned (s : state) (r : num) (x : state) (st st' : vi_vars) :
  terminal_reward !! s = Some (Some r) →
  visit st x = Ok st' →
  pinned s r (vi_V st) (vi_policy st) → pinned s r (vi_V st') (vi_policy st').
Proof.
  intros Htr Hv [HV Hp]. destruct (decide (x = s)) as [->|Hne].
  - by eapply vi_visit_pins.
  - destruct (vi_visit_frame _ _ _ _ _ _ _ _ _ Hv Hne) as [HV' Hp'].
    split; congruence.
Qed.

Lemma vi_for_each_pins (s : state) (r : num) (l : list state) (st st' : vi_vars) :
  terminal_reward !! s = Some (Some r) →
  for_each visit st l = Ok st' →
  s ∈ l ∨ pinned s r (vi_V st) (vi_policy st) →
  pinned s r (vi_V st') (vi_policy st').
Proof.
  intros Htr Hrun Hs.
  apply (vi_for_each_establish P R actions terminal_reward gamma
           (fun _ _ => True) (pinned s r) s l st st'); try done.
  - intros x a a'. by apply vi_visit_keeps_pinned.
  - intros a a' Hv _. by eapply vi_visit_pins.
Qed.

Lemma vi_sweeps_pins (s : state) (r : num) (n : nat) V policy V' policy' :
  s ∈ pages → terminal_reward !! s = Some (Some r) →
  vi_sweeps n V policy = Ok (V', policy') →
  (1 <= n)%nat ∨ pinned s r V policy →
  pinned s r V' policy'.
Proof.
  intros Hs Htr. revert V policy. induction n as [|n IH]; intros V policy; simpl.
  - intros [= <- <-] [Hn|Hp]; [lia | done].
  - intros (st & Hsweep & Hrest)%bind_Ok _. apply (IH _ _ Hrest). right.
    eapply vi_for_each_pins; [done | exact Hsweep | by left].
Qed.

(** The initialisation loop of [policy_iteration] pins the terminal states. *)
Lemma pi_init_visit_frame (st st' : gmap state num * gmap state action)
    (x s : state) :
  pi_init_visit actions terminal_reward st x = Ok st' → x ≠ s →
  st'.1 !! s = st.1 !! s ∧ st'.2 !! s = st.2 !! s.
Proof.
  unfold pi_init_visit. intros (tr & _ & Hv)%bind_Ok Hne. destruct tr as [r|].
  - injection Hv as <-. cbn. by rewrite !lookup_insert_ne.
  - apply bind_Ok in Hv as (acts & _ & Hv). destruct acts; [done|].
    injection Hv as <-. cbn. by rewrite lookup_insert_ne.
Qed.

Lemma pi_init_pins (s : state) (r : num) V policy :
  s ∈ pages → terminal_reward !! s = Some (Some r) →
  pi_init pages actions terminal_reward = Ok (V, policy) → pinned s r V policy.
Proof.
  intros Hs Htr. unfold pi_init.
  generalize (zero_values pages, ∅ : gmap state action).
  revert Hs. generalize pages as l. intros l Hs st Hrun.
  enough (s ∈ l ∨ pinned s r st.1 st.2 → pinned s r V policy) as H by (apply H; by left).
  revert st Hrun. clear Hs. induction l as [|x l IH]; intros st; simpl.
  - intros [= ->] [Hin|Hp]; [by apply elem_of_nil in Hin | done].
  - intros (st1 & H1 & H2)%bind_Ok Hcase. apply (IH _ H2).
    destruct (decide (x = s)) as [->|Hne].
    + right. unfold pi_init_visit in H1.
      rewrite (getitem_lookup _ _ _ Htr) in H1. injection H1 as <-.
      split; apply lookup_insert_eq.
    + destruct Hcase as [[->|Hin]%elem_of_cons|[HV Hp]]; [done | by left |].
      right. destruct (pi_init_visit_frame _ _ _ _ H1 Hne) as [HV' Hp'].
      split; congruence.
Qed.

Lemma pi_eval_visit_keeps (s : state) (r : num) policy (st st' : gmap state num * num)
    (x : state) :
  terminal_reward !! s = Some (Some r) →
  pi_eval_visit P R terminal_reward gamma policy st x = Ok st' →
  st'.1 !! s = st.1 !! s.
Proof.
  intros Htr. destruct (decide (x = s)) as [->|Hne].
  - rewrite (pi_eval_visit_terminal _ _ _ _ _ _ _ _ Htr). by intros [= <-].
  - unfold pi_eval_visit. intros (tr & _ & Hv)%bind_Ok. destruct tr.
    + by injection Hv as <-.
    + apply bind_Ok in Hv as (a & _ & (old & _ & (new & _ & [= <-])%bind_Ok)%bind_Ok).
      cbn. by rewrite lookup_insert_ne.
Qed.

Lemma pi_improve_visit_keeps (s : state) (r : num) V
    (st st' : gmap state action * bool) (x : state) :
  terminal_reward !! s = Some (Some r) →
  pi_improve_visit P R actions terminal_reward gamma V st x = Ok st' →
  st'.1 !! s = st.1 !! s.
Proof.
  intros Htr. destruct (decide (x = s)) as [->|Hne].
  - rewrite (pi_improve_visit_terminal _ _ _ _ _ _ _ _ _ Htr). by intros [= <-].
  - unfold pi_improve_visit. intros (tr & _ & Hv)%bind_Ok. destruct tr.
    + by injection Hv as <-.
    + apply bind_Ok in Hv as (old & _ & ([m a] & _ & [= <-])%bind_Ok).
      cbn. by rewrite lookup_insert_ne.
Qed.

Lemma pi_reach_pinned (s : state) (r : num) V policy :
  s ∈ pages → terminal_reward !! s = Some (Some r) →
  pi_reach V policy → pinned s r V policy.
Proof.
  intros Hs Htr. induction 1 as [V policy Hinit
    | V policy delta x V' delta' _ IH _ Hv
    | V V0 policy stable x policy' stable' _ IH _ Hv].
  - by eapply pi_init_pins.
  - destruct IH as [HV Hp]. split; [|done].
    apply (pi_eval_visit_keeps s r) in Hv; [|done]. cbn in Hv. congruence.
  - destruct IH as [HV Hp]. split; [done|].
    apply (pi_improve_visit_keeps s r) in Hv; [|done]. cbn in Hv. congruence.
Qed.

End Points.

Section PiReach.

Context (pages : list state)
        (P : gmap state (gmap action dist))
        (R : gmap state (gmap action (gmap state Q)))
        (actions : gmap state (list action))
        (terminal_reward : gmap state (option num)) (gamma theta : Q).

Local Abbreviation reach := (pi_reach pages P R actions terminal_reward gamma).

Lemma pi_eval_for_each_reach policy (l : list state) (st st' : gmap state num * num) :
  l ⊆ pages →
  for_each (pi_eval_visit P R terminal_reward gamma policy) st l = Ok st' →
  reach st.1 policy → reach st'.1 policy.
Proof.
  revert st. induction l as [|x l IH]; intros st Hl; simpl.
  - by intros [= <-].
  - intros (st1 & H1 & H2)%bind_Ok Hreach.
    apply (IH st1); [intros y Hy; apply Hl; by right | done |].
    destruct st as [V delta], st1 as [V1 delta1].
    eapply pi_reach_eval; [exact Hreach | apply Hl; left | exact H1].
Qed.

Lemma pi_evaluate_reach (fuel : nat) policy V V' :
  pi_evaluate pages P R terminal_reward gamma theta fuel policy V = Some (Ok V') →
  reach V policy → reach V' policy.
Proof.
  revert V. induction fuel as [|fuel IH]; intros V; simpl; [done|].
  destruct (pi_eval_sweep pages P R terminal_reward gamma policy V)
    as [[V1 delta]|e] eqn:Hsweep; [|done].
  intros Hrun Hreach.
  assert (reach V1 policy).
  { apply (pi_eval_for_each_reach policy pages (V, Fin 0) (V1, delta)); done. }
  destruct (nlt delta (Fin theta)); [by injection Hrun as <- | by apply (IH V1)].
Qed.

Lemma pi_improve_for_each_reach V V0 (l : list state)
    (st st' : gmap state action * bool) :
  l ⊆ pages →
  for_each (pi_improve_visit P R actions terminal_reward gamma V0) st l = Ok st' →
  reach V st.1 → reach V st'.1.
Proof.
  revert st. induction l as [|x l IH]; intros st Hl; simpl.
  - by intros [= <-].
  - intros (st1 & H1 & H2)%bind_Ok Hreach.
    apply (IH st1); [intros y Hy; apply Hl; by right | done |].
    destruct st as [policy stable], st1 as [policy1 stable1].
    eapply pi_reach_improve; [exact Hreach | apply Hl; left | exact H1].
Qed.

Lemma pi_loop_reach (fuel inner : nat) V policy V' policy' :
  pi_loop pages P R actions terminal_reward gamma theta fuel inner V policy
    = Some (Ok (V', policy')) →
  reach V policy → reach V' policy'.
Proof.
  revert V policy. induction fuel as [|fuel IH]; intros V policy; simpl; [done|].
  destruct (pi_evaluate pages P R terminal_reward gamma theta inner policy V)
    as [[V1|e]|] eqn:Heval; [|done|done].
  destruct (pi_improve pages P R actions terminal_reward gamma V1 policy)
    as [[policy1 stable]|e] eqn:Himp; [|done].
  intros Hrun Hreach.
  assert (reach V1 policy1).
  { apply (pi_improve_for_each_reach V1 V1 pages (policy, true) (policy1, stable));
      [done | done |]. by eapply pi_evaluate_reach. }
  destruct stable; [by injection Hrun as <- <- | by apply (IH V1 policy1)].
Qed.

Lemma policy_iteration_reach (fuel inner : nat) V policy :
  policy_iteration pages P R actions terminal_reward gamma theta fuel inner
    = Some (Ok (V, policy)) →
  reach V policy.
Proof.
  unfold policy_iteration.
  destruct (pi_init pages actions terminal_reward) as [[V0 policy0]|e] eqn:Hinit;
    [|done].
  intros Hrun. eapply pi_loop_reach; [exact Hrun|]. by apply pi_reach_init.
Qed.

End PiReach.

(** The two-state scenario: from page [A] the only link leads to the terminal
    page [B] of reward 10, with the probabilities and the penalty that
    [build_mdp] gives a page with a single link. *)
Module TwoState.
Definition pages : list state := ["A"; "B"].
Definition P : gmap state (gmap action dist) :=
  {[ "A" := {[ Some "B" := [("B", 0.90); ("A", 0.10)] ]};
     "B" := {[ None := [("B", 1)] ]} ]}.
Definition R : gmap state (gmap action (gmap state Q)) :=
  {[ "A" := {[ Some "B" := {[ "B" := -0.05; "A" := -0.05 ]} ]};
     "B" := {[ None := {[ "B" := 0 ]} ]} ]}.
Definition actions : gmap state (list action) :=
  {[ "A" := [Some "B"]; "B" := [None] ]}.
Definition terminal_reward : gmap state (option num) :=
  {[ "A" := None; "B" := Some (Fin 10) ]}.
End TwoState.

(** C4, as worded, fails for [value_iteration].  In the two-state scenario
    the first sweep visits [A] before [B]: at the point between the two
    visits, [V[B]] is still the initial 0.0, not the terminal reward 10, and
    [policy] has no entry for [B] (so the backup of [A] has just read 0.0 for
    the terminal state). *)
Lemma terminal_not_pinned_before_first_visit :
  (∃ st,
     for_each (vi_visit TwoState.P TwoState.R TwoState.actions
                 TwoState.terminal_reward GAMMA)
       (ViVars (zero_values TwoState.pages) ∅ (Fin 0)) ["A"] = Ok st ∧
     TwoState.terminal_reward !! "B" = Some (Some (Fin 10)) ∧
     vi_V st !! "B" = Some (Fin 0) ∧ vi_policy st !! "B" = None ∧
     vi_V st !! "A" = Some (Fin (-1 # 20))) ∧
  ¬ vi_pinned_at_every_point TwoState.pages TwoState.P TwoState.R
      TwoState.actions TwoState.terminal_reward GAMMA.
Proof.
  assert (Hrun : for_each (vi_visit TwoState.P TwoState.R TwoState.actions
                 TwoState.terminal_reward GAMMA)
       (ViVars (zero_values TwoState.pages) ∅ (Fin 0)) ["A"]
     = Ok (ViVars (<["A" := Fin (-1 # 20)]> (zero_values TwoState.pages))
             {["A" := Some "B"]} (Fin (1 # 20)))).
  { vm_compute. reflexivity. }
  split.
  - eexists. split; [exact Hrun|]. repeat split; vm_compute; reflexivity.
  - intros Hclaim.
    destruct (Hclaim "B" (Fin 10) ltac:(right; left) eq_refl 0%nat ["A"] ["B"] _ _ _
                eq_refl eq_refl Hrun) as [HV _].
    vm_compute in HV. discriminate.
Qed.

(** C4, amended.  For a terminal state [s] of reward [r]:
    - in [value_iteration], [V[s] = r] and [policy[s] = None] hold at every
      point from the first visit of [s] on: after any prefix of the first
      sweep that contains [s], at every point of every later sweep, and in
      the returned result; a visit of [s] is the plain assignment of the two
      entries, with no backup;
    - in [policy_iteration] they hold at every point after the
      initialisation loop and in the returned result; policy evaluation and
      policy improvement skip [s]. *)
Theorem terminal_pinning
    (pages : list state)
    (P : gmap state (gmap action dist))
    (R : gmap state (gmap action (gmap state Q)))
    (actions : gmap state (list action))
    (terminal_reward : gmap state (option num)) (gamma theta : Q)
    (s : state) (r : num) :
  s ∈ pages →
  terminal_reward !! s = Some (Some r) →
  (∀ n l1 l2 V policy st,
     pages = l1 ++ l2 →
     vi_sweeps pages P R actions terminal_reward gamma n (zero_values pages) ∅
       = Ok (V, policy) →
     for_each (vi_visit P R actions terminal_reward gamma)
       (ViVars V policy (Fin 0)) l1 = Ok st →
     (1 <= n)%nat ∨ s ∈ l1 →
     pinned s r (vi_V st) (vi_policy st)) ∧
  (∀ st, vi_visit P R actions terminal_reward gamma st s
         = Ok (ViVars (<[s := r]> (vi_V st)) (<[s := None]> (vi_policy st))
                 (vi_delta st))) ∧
  (∀ fuel V policy,
     value_iteration pages P R actions terminal_reward gamma theta fuel
       = Some (Ok (V, policy)) →
     pinned s r V policy) ∧
  (∀ V policy,
     pi_reach pages P R actions terminal_reward gamma V policy →
     pinned s r V policy) ∧
  (∀ policy V st_eval st_improve,
     pi_eval_visit P R terminal_reward gamma policy st_eval s = Ok st_eval ∧
     pi_improve_visit P R actions terminal_reward gamma V st_improve s
       = Ok st_improve) ∧
  (∀ fuel inner V policy,
     policy_iteration pages P R actions terminal_reward gamma theta fuel inner
       = Some (Ok (V, policy)) →
     pinned s r V policy).
Proof.
  intros Hs Htr.
  split; [|split; [|split; [|split; [|split]]]].
  - intros n l1 l2 V policy st _ Hsweeps Hprefix Hcase.
    eapply (vi_for_each_pins P R actions terminal_reward gamma s r l1); [done|done|].
    destruct Hcase as [Hn|Hin]; [right | by left].
    eapply vi_sweeps_pins; [exact Hs | exact Htr | exact Hsweeps | by left].
  - intros st. by apply vi_visit_terminal.
  - intros fuel V policy Hrun.
    eapply (vi_loop_establish pages P R actions terminal_reward gamma theta
              (fun _ _ => True) (pinned s r) s fuel (zero_values pages) ∅ V policy);
      try done.
    + intros x a a'. by apply vi_visit_keeps_pinned.
    + intros a a' Hv _. by eapply vi_visit_pins.
  - intros V policy. by apply pi_reach_pinned.
  - intros policy V st_eval st_improve. split.
    + by eapply pi_eval_visit_terminal.
    + by eapply pi_improve_visit_terminal.
  - intros fuel inner V policy Hrun.
    eapply pi_reach_pinned; [done | done |]. by eapply policy_iteration_reach.
Qed.

Lemma terminal_pinning_witness :
  (∃ V policy,
     value_iteration TwoState.pages TwoState.P TwoState.R TwoState.actions
       TwoState.terminal_reward GAMMA THRESHOLD 20 = Some (Ok (V, policy)) ∧
     pinned "B" (Fin 10) V policy) ∧
  (∃ V policy,
     policy_iteration TwoState.pages TwoState.P TwoState.R TwoState.actions
       TwoState.terminal_reward GAMMA THRESHOLD 20 20 = Some (Ok (V, policy)) ∧
     pinned "B" (Fin 10) V policy).
Proof.
  pose proof (terminal_pinning TwoState.pages TwoState.P TwoState.R
    TwoState.actions TwoState.terminal_reward GAMMA THRESHOLD "B" (Fin 10)
    ltac:(right; left) eq_refl) as (_ & _ & Hvi & _ & _ & Hpi).
  split.
  - destruct (value_iteration TwoState.pages TwoState.P TwoState.R
      TwoState.actions TwoState.terminal_reward GAMMA THRESHOLD 20)
      as [[[V policy]|e]|] eqn:E; [|vm_compute in E; discriminate..].
    exists V, policy. split; [done|]. by apply (Hvi 20%nat).
  - destruct (policy_iteration TwoState.pages TwoState.P TwoState.R
      TwoState.actions TwoState.terminal_reward GAMMA THRESHOLD 20 20)
      as [[[V policy]|e]|] eqn:E; [|vm_compute in E; discriminate..].
    exists V, policy. split; [done|]. by apply (Hpi 20%nat 20%nat).
Defined.

(** ** Sweeps update [V] in place *)

Section InPlace.

Context (pages : list state)
        (P : gmap state (gmap action dist))
        (R : gmap state (gmap action (gmap state Q)))
        (actions : gmap state (list action))
        (terminal_reward : gmap state (option num)) (gamma : Q).

Local Abbreviation visit := (vi_visit P R actions terminal_reward gamma).

(** The claim of synchronous sweeps, as it is worded: while a sweep visits
    [s], every [V[s_prime]] that the backups of [s] read is the value that
    [s_prime] had when the previous sweep ended. *)
Definition vi_reads_previous_sweep : Prop :=
  ∀ n V policy l1 s l2 st acts a d s_prime prob,
    vi_sweeps pages P R actions terminal_reward gamma n (zero_values pages) ∅
      = Ok (V, policy) →
    pages = l1 ++ s :: l2 →
    for_each visit (ViVars V policy (Fin 0)) l1 = Ok st →
    terminal_reward !! s = Some None →
    actions !! s = Some acts → a ∈ acts →
    P !! s ≫= (.!! a) = Some d → (s_prime, prob) ∈ d →
    vi_V st !! s_prime = V !! s_prime.

Lemma vi_for_each_frame (l : list state) (st st' : vi_vars) (s : state) :
  for_each visit st l = Ok st' → s ∉ l →
  vi_V st' !! s = vi_V st !! s ∧ vi_policy st' !! s = vi_policy st !! s.
Proof.
  revert st. induction l as [|x l IH]; intros st; simpl.
  - by intros [= <-].
  - intros (st1 & H1 & H2)%bind_Ok Hs. apply not_elem_of_cons in Hs as [Hne Hs].
    destruct (IH _ H2 Hs) as [HV Hp].
    destruct (vi_visit_frame _ _ _ _ _ _ _ _ _ H1 (not_eq_sym Hne)) as [HV1 Hp1].
    split; congruence.
Qed.

End InPlace.

(** Two pages that link to each other, as [build_mdp] models them. *)
Module Mutual.
Definition pages : list state := ["a.html"; "b.html"].
Definition links : gmap state (list state) :=
  {[ "a.html" := ["b.html"]; "b.html" := ["a.html"] ]}.
Definition terminal_reward : gmap state (option num) :=
  {[ "a.html" := None; "b.html" := None ]}.
Definition P : gmap state (gmap action dist) :=
  {[ "a.html" := {[ Some "b.html" := [("b.html", 0.90); ("a.html", 0.10)] ]};
     "b.html" := {[ Some "a.html" := [("a.html", 0.90); ("b.html", 0.10)] ]} ]}.
Definition R : gmap state (gmap action (gmap state Q)) :=
  {[ "a.html" := {[ Some "b.html" := {[ "b.html" := -0.05; "a.html" := -0.05 ]} ]};
     "b.html" := {[ Some "a.html" := {[ "a.html" := -0.05; "b.html" := -0.05 ]} ]} ]}.
Definition actions : gmap state (list action) :=
  {[ "a.html" := [Some "b.html"]; "b.html" := [Some "a.html"] ]}.
End Mutual.

Lemma Mutual_built :
  build_mdp Mutual.pages Mutual.links Mutual.terminal_reward
  = Ok (Mdp Mutual.P Mutual.R Mutual.actions).
Proof. vm_compute. reflexivity. Qed.

(** C1, as worded, fails: the sweeps are not synchronous.  With two pages
    that link to each other, the first sweep leaves [V[a.html] = -0.05].
    The second sweep visits [a.html] first and stores -0.13660645 there; the
    backup of [b.html], later in that same sweep, reads this new value and
    not the -0.05 that [a.html] had when the first sweep ended. *)
Lemma sweep_reads_updated_values :
  (∃ st1 st,
     vi_sweep Mutual.pages Mutual.P Mutual.R Mutual.actions
       Mutual.terminal_reward GAMMA (zero_values Mutual.pages) ∅ = Ok st1 ∧
     vi_V st1 !! "a.html" = Some (Fin (-1 # 20)) ∧
     for_each (vi_visit Mutual.P Mutual.R Mutual.actions
                 Mutual.terminal_reward GAMMA)
       (ViVars (vi_V st1) (vi_policy st1) (Fin 0)) ["a.html"] = Ok st ∧
     vi_V st !! "a.html" = Some (Fin (-2732129 # 20000000)) ∧
     Mutual.P !! "b.html" ≫= (.!! Some "a.html")
       = Some [("a.html", 0.90); ("b.html", 0.10)]) ∧
  ¬ vi_reads_previous_sweep Mutual.pages Mutual.P Mutual.R Mutual.actions
      Mutual.terminal_reward GAMMA.
Proof.
  destruct (vi_sweep Mutual.pages Mutual.P Mutual.R Mutual.actions
       Mutual.terminal_reward GAMMA (zero_values Mutual.pages) ∅)
    as [st1|e] eqn:Hst1; [|vm_compute in Hst1; discriminate].
  destruct (for_each (vi_visit Mutual.P Mutual.R Mutual.actions
                 Mutual.terminal_reward GAMMA)
       (ViVars (vi_V st1) (vi_policy st1) (Fin 0)) ["a.html"])
    as [st|e] eqn:Hst;
    [|vm_compute in Hst1; injection Hst1 as <-; vm_compute in Hst; discriminate].
  assert (H1 : vi_V st1 !! "a.html" = Some (Fin (-1 # 20))).
  { vm_compute in Hst1. injection Hst1 as <-. vm_compute. reflexivity. }
  assert (H2 : vi_V st !! "a.html" = Some (Fin (-2732129 # 20000000))).
  { vm_compute in Hst1. injection Hst1 as <-. vm_compute in Hst.
    injection Hst as <-. vm_compute. reflexivity. }
  split.
  - exists st1, st. repeat split; done.
  - intros Hclaim.
    specialize (Hclaim 1%nat (vi_V st1) (vi_policy st1) ["a.html"] "b.html" []
                  st [Some "a.html"] (Some "a.html")
                  [("a.html", 0.90); ("b.html", 0.10)] "a.html" 0.90).
    rewrite H1, H2 in Hclaim.
    enough (Some (Fin (-2732129 # 20000000)) = Some (Fin (-1 # 20))) by discriminate.
    apply Hclaim; try done.
    + cbn [vi_sweeps]. unfold Mutual.pages in Hst1 |- *. by rewrite Hst1.
    + left.
    + left.
Qed.

(** C1, amended.  A sweep updates [V] in place.  When a sweep over pages
    without repetition reaches [s], the values it reads for the backups of
    [s] are those of the present sweep for the pages visited before [s] and
    those left by the previous sweep for [s] itself and the pages not yet
    visited; from these the visit computes the value and the action that the
    sweep leaves at [s]. *)
Theorem vi_sweep_in_place
    (pages : list state)
    (P : gmap state (gmap action dist))
    (R : gmap state (gmap action (gmap state Q)))
    (actions : gmap state (list action))
    (terminal_reward : gmap state (option num)) (gamma : Q)
    (V : gmap state num) (policy : gmap state action)
    (l1 l2 : list state) (s : state) (st st_end : vi_vars) :
  NoDup pages →
  pages = l1 ++ s :: l2 →
  for_each (vi_visit P R actions terminal_reward gamma)
    (ViVars V policy (Fin 0)) l1 = Ok st →
  vi_sweep pages P R actions terminal_reward gamma V policy = Ok st_end →
  (∀ x, x ∈ l1 → vi_V st !! x = vi_V st_end !! x) ∧
  (∀ x, x ∉ l1 → vi_V st !! x = V !! x) ∧
  (terminal_reward !! s = Some None →
   ∃ max_value best_action,
     greedy P R actions gamma (vi_V st) s = Ok (max_value, best_action) ∧
     vi_V st_end !! s = Some max_value ∧
     vi_policy st_end !! s = Some best_action).
Proof.
  intros Hnodup -> Hprefix. unfold vi_sweep.
  rewrite for_each_app, Hprefix. cbn [mbind result_bind for_each].
  intros (st_s & Hvisit & Hrest)%bind_Ok.
  apply NoDup_app in Hnodup as (_ & Hdisj & [Hs Hl2]%NoDup_cons).
  split; [|split].
  - intros x Hx.
    destruct (vi_for_each_frame P R actions terminal_reward gamma l2 st_s st_end x Hrest)
      as [-> _].
    + intros Hin. apply (Hdisj x Hx). by right.
    + symmetry.
      apply (vi_visit_frame P R actions terminal_reward gamma st st_s s x Hvisit).
      intros ->. apply (Hdisj x Hx). left.
  - intros x Hx.
    by destruct (vi_for_each_frame P R actions terminal_reward gamma l1 _ st x
                   Hprefix Hx) as [-> _].
  - intros Htr. rewrite vi_visit_decision in Hvisit by done.
    apply bind_Ok in Hvisit as ([m a] & Hg & (old & _ & [= <-])%bind_Ok).
    exists m, a. split; [done|].
    destruct (vi_for_each_frame P R actions terminal_reward gamma l2 _ st_end s
                Hrest Hs) as [-> ->].
    cbn. by rewrite !lookup_insert_eq.
Qed.

Lemma vi_sweep_in_place_witness :
  ∃ st st_end x y,
    vi_V st !! "a.html" = vi_V st_end !! "a.html" ∧
    vi_V st !! "b.html" = zero_values Mutual.pages !! "b.html" ∧
    greedy Mutual.P Mutual.R Mutual.actions GAMMA (vi_V st) "b.html" = Ok (x, y) ∧
    vi_V st_end !! "b.html" = Some x.
Proof.
  destruct (for_each (vi_visit Mutual.P Mutual.R Mutual.actions
                 Mutual.terminal_reward GAMMA)
       (ViVars (zero_values Mutual.pages) ∅ (Fin 0)) ["a.html"])
    as [st|e] eqn:Hst; [|vm_compute in Hst; discriminate].
  destruct (vi_sweep Mutual.pages Mutual.P Mutual.R Mutual.actions
       Mutual.terminal_reward GAMMA (zero_values Mutual.pages) ∅)
    as [st_end|e] eqn:Hend; [|vm_compute in Hend; discriminate].
  destruct (vi_sweep_in_place Mutual.pages Mutual.P Mutual.R Mutual.actions
      Mutual.terminal_reward GAMMA (zero_values Mutual.pages) ∅
      ["a.html"] [] "b.html" st st_end) as (Hold & Hnew & Hs); try done.
  { apply NoDup_cons. split; [|apply NoDup_singleton].
    intros [=]%list_elem_of_singleton. }
  destruct (Hs eq_refl) as (x & y & Hg & Hx & _).
  exists st, st_end, x, y. split; [|split; [|done]].
  - apply Hold. left.
  - apply Hnew. intros [=]%list_elem_of_singleton.
Defined.

(** ** The loop of [value_iteration] has no iteration cap *)

Section NoCap.

Context (pages : list state)
        (P : gmap state (gmap action dist))
        (R : gmap state (gmap action (gmap state Q)))
        (actions : gmap state (list action))
        (terminal_reward : gmap state (option num)) (gamma theta : Q).

Local Abbreviation sweep := (vi_sweep pages P R actions terminal_reward gamma).
Local Abbreviation sweeps := (vi_sweeps pages P R actions terminal_reward gamma).
Local Abbreviation loop := (vi_loop pages P R actions terminal_reward gamma theta).

(** Sweep number [k + 1] completes and does not meet [theta]. *)
Definition vi_sweep_misses (V : gmap state num) (policy : gmap state action)
    (k : nat) : Prop :=
  ∃ V' policy' st,
    sweeps k V policy = Ok (V', policy') ∧ sweep V' policy' = Ok st ∧
    nlt (vi_delta st) (Fin theta) = false.

Lemma vi_loop_None_iff (n : nat) V policy :
  loop n V policy = None ↔ ∀ k, (k < n)%nat → vi_sweep_misses V policy k.
Proof.
  revert V policy. induction n as [|n IH]; intros V policy.
  - split; [intros _ k Hk; lia | done].
  - cbn [vi_loop]. split.
    + destruct (sweep V policy) as [st|e] eqn:Hsweep; [|done].
      destruct (nlt (vi_delta st) (Fin theta)) eqn:Hlt; [done|].
      intros Hrest [|k] Hk.
      * exists V, policy, st. done.
      * destruct (proj1 (IH _ _) Hrest k ltac:(lia))
          as (V' & policy' & st' & H1 & H2 & H3).
        exists V', policy', st'. cbn [vi_sweeps]. rewrite Hsweep. done.
    + intros Hall.
      destruct (Hall 0%nat ltac:(lia)) as (V0 & policy0 & st & [= <- <-] & Hsweep & Hlt).
      rewrite Hsweep, Hlt. apply IH. intros k Hk.
      destruct (Hall (S k) ltac:(lia)) as (V' & policy' & st' & H1 & H2 & H3).
      cbn [vi_sweeps] in H1. rewrite Hsweep in H1.
      exists V', policy', st'. done.
Qed.

End NoCap.

(** A single page whose only action loops back to it with reward 1. *)
Module Growing.
Definition pages : list state := ["s"].
Definition P : gmap state (gmap action dist) :=
  {[ "s" := {[ Some "s" := [("s", 1)] ]} ]}.
Definition R : gmap state (gmap action (gmap state Q)) :=
  {[ "s" := {[ Some "s" := {[ "s" := 1 ]} ]} ]}.
Definition actions : gmap state (list action) := {[ "s" := [Some "s"] ]}.
Definition terminal_reward : gmap state (option num) := {[ "s" := None ]}.
End Growing.

Lemma Growing_value (k : Z) :
  Qred (0 + Qred (1 * Qred (1 + Qred (1 * inject_Z k)))) = inject_Z (k + 1).
Proof.
  rewrite <- (inject_Z_Qred (k + 1)). apply Qred_complete.
  rewrite !Qred_correct, inject_Z_plus. ring.
Qed.

Lemma Growing_delta (k : Z) : Qabs (Qred (inject_Z k - inject_Z (k + 1))) = 1.
Proof.
  replace (Qred (inject_Z k - inject_Z (k + 1))) with (Qred (-1)); [reflexivity|].
  apply Qred_complete. rewrite inject_Z_plus. ring.
Qed.

(** With [gamma = 1] a sweep takes [V[s]] from [k] to [k + 1]: [delta] is 1. *)
Lemma Growing_sweep (k : Z) (policy : gmap state action) :
  policy = ∅ ∨ policy = {[ "s" := Some "s" ]} →
  vi_sweep Growing.pages Growing.P Growing.R Growing.actions
    Growing.terminal_reward 1 {[ "s" := Fin (inject_Z k) ]} policy
  = Ok (ViVars {[ "s" := Fin (inject_Z (k + 1)) ]} {[ "s" := Some "s" ]} (Fin 1)).
Proof.
  intros Hpolicy. rewrite <- (Growing_value k).
  transitivity (Ok (ViVars
    {[ "s" := Fin (Qred (0 + Qred (1 * Qred (1 + Qred (1 * inject_Z k))))) ]}
    {[ "s" := Some "s" ]}
    (pymax (Fin 0) (Fin (Qabs (Qred (inject_Z k -
       Qred (0 + Qred (1 * Qred (1 + Qred (1 * inject_Z k)))))))))));
    [destruct Hpolicy as [-> | ->]; reflexivity|].
  rewrite (Growing_value k), Growing_delta. reflexivity.
Qed.

Lemma Growing_loops (fuel : nat) (k : Z) (policy : gmap state action) :
  policy = ∅ ∨ policy = {[ "s" := Some "s" ]} →
  vi_loop Growing.pages Growing.P Growing.R Growing.actions
    Growing.terminal_reward 1 THRESHOLD fuel {[ "s" := Fin (inject_Z k) ]} policy
  = None.
Proof.
  revert k policy. induction fuel as [|fuel IH]; intros k policy Hpolicy; [done|].
  cbn [vi_loop]. rewrite Growing_sweep by done. cbn [vi_delta vi_V vi_policy].
  change (nlt (Fin 1) (Fin THRESHOLD)) with false. apply IH. by right.
Qed.

(** C3, as worded, fails: [value_iteration] takes no cap and has no
    divergence error to raise.  On the one-page model above with
    [gamma = 1], every sweep adds 1 to [V[s]], so [delta] is 1 after every
    sweep and the loop neither returns nor raises, whatever the number of
    sweeps allowed. *)
Lemma value_iteration_neither_returns_nor_raises :
  ¬ ∃ fuel outcome,
      value_iteration Growing.pages Growing.P Growing.R Growing.actions
        Growing.terminal_reward 1 THRESHOLD fuel = Some outcome.
Proof.
  intros (fuel & outcome & Hrun). unfold value_iteration in Hrun.
  change (zero_values Growing.pages) with ({[ "s" := Fin (inject_Z 0) ]} : gmap state num)
    in Hrun.
  rewrite Growing_loops in Hrun; [done | by left].
Qed.

(** C3, amended.  [value_iteration] has no iteration cap and no divergence
    error: whatever [n] is, it is still sweeping after [n] sweeps exactly
    when each of its first [n] sweeps completed with a [delta] that is not
    below [theta].  The loop ends only by returning after a sweep whose
    [delta] is below [theta] or by the exception of a failed lookup. *)
Theorem value_iteration_no_cap
    (pages : list state)
    (P : gmap state (gmap action dist))
    (R : gmap state (gmap action (gmap state Q)))
    (actions : gmap state (list action))
    (terminal_reward : gmap state (option num)) (gamma theta : Q) (n : nat) :
  (∀ k, (k < n)%nat →
     vi_sweep_misses pages P R actions terminal_reward gamma theta
       (zero_values pages) ∅ k) ↔
  value_iteration pages P R actions terminal_reward gamma theta n = None.
Proof. symmetry. apply vi_loop_None_iff. Qed.

Lemma value_iteration_no_cap_witness :
  value_iteration Growing.pages Growing.P Growing.R Growing.actions
    Growing.terminal_reward 1 THRESHOLD 3 = None.
Proof.
  apply (proj1 (value_iteration_no_cap Growing.pages Growing.P Growing.R
                  Growing.actions Growing.terminal_reward 1 THRESHOLD 3)).
  intros k Hk. unfold vi_sweep_misses.
  destruct k as [|[|[|k]]]; [| | |lia].
  - eexists _, _, _. split; [reflexivity|]. split; vm_compute; reflexivity.
  - eexists _, _, _. split; [vm_compute; reflexivity|]. split; vm_compute; reflexivity.
  - eexists _, _, _. split; [vm_compute; reflexivity|]. split; vm_compute; reflexivity.
Defined.

(** ** Well-shaped models: every lookup of the solvers is defined *)

(** The value that a state holds, when it is a finite number. *)
Definition val (V : gmap state num) (s : state) : Q :=
  match V !! s with Some (Fin q) => q | _ => 0 end.

(** Every page holds a finite value. *)
Definition finite_on (pages : list state) (V : gmap state num) : Prop :=
  ∀ s, s ∈ pages → ∃ q, V !! s = Some (Fin q).

Section Shape.

Context (pages : list state)
        (P : gmap state (gmap action dist))
        (R : gmap state (gmap action (gmap state Q)))
        (actions : gmap state (list action))
        (terminal_reward : gmap state (option num)) (gamma : Q).

(** [sum(prob * (reward + gamma * f(s_prime)))] over a distribution. *)
Definition exp_value (rs : gmap state Q) (f : state → Q) (d : dist) : Q :=
  foldr (fun kv acc => kv.2 * (default 0 (rs !! kv.1) + gamma * f kv.1) + acc) 0 d.

(** The backed-up value [Q(s, a)] under the values [f]. *)
Definition qvalue (f : state → Q) (s : state) (a : action) : Q :=
  match P !! s ≫= (.!! a), R !! s ≫= (.!! a) with
  | Some d, Some rs => exp_value rs f d
  | _, _ => 0
  end.

(** Every page has a terminal-reward entry, and the reward of a terminal
    page is finite; every decision page has a non-empty action list, and each
    of its actions has a distribution over pages and a reward for each
    successor. *)
Record mdp_shape : Prop := MdpShape {
  shape_terminal : ∀ s, s ∈ pages → is_Some (terminal_reward !! s);
  shape_rewards : ∀ s r, s ∈ pages → terminal_reward !! s = Some (Some r) →
    ∃ q, r = Fin q;
  shape_actions : ∀ s, s ∈ pages → terminal_reward !! s = Some None →
    ∃ acts, actions !! s = Some acts ∧ acts ≠ [];
  shape_successors : ∀ s acts a, s ∈ pages →
    terminal_reward !! s = Some None → actions !! s = Some acts → a ∈ acts →
    ∃ d rs, P !! s ≫= (.!! a) = Some d ∧ R !! s ≫= (.!! a) = Some rs ∧
      ∀ kv, kv ∈ d → kv.1 ∈ pages ∧ is_Some (rs !! kv.1);
}.

(** The same without the condition on the rewards: every key that a solver
    looks up is there. *)
Record mdp_keys : Prop := MdpKeys {
  keys_terminal : ∀ s, s ∈ pages → is_Some (terminal_reward !! s);
  keys_actions : ∀ s, s ∈ pages → terminal_reward !! s = Some None →
    ∃ acts, actions !! s = Some acts ∧ acts ≠ [];
  keys_successors : ∀ s acts a, s ∈ pages →
    terminal_reward !! s = Some None → actions !! s = Some acts → a ∈ acts →
    ∃ d rs, P !! s ≫= (.!! a) = Some d ∧ R !! s ≫= (.!! a) = Some rs ∧
      ∀ kv, kv ∈ d → kv.1 ∈ pages ∧ is_Some (rs !! kv.1);
}.

Lemma mdp_keys_shape :
  mdp_keys →
  (∀ s r, s ∈ pages → terminal_reward !! s = Some (Some r) → ∃ q, r = Fin q) →
  mdp_shape.
Proof. intros [? ? ?] ?. by split. Qed.

Lemma mdp_shape_keys : mdp_shape → mdp_keys.
Proof. intros [? ? ? ?]. by split. Qed.

Lemma lookup_bind_Some {A : Type} (M : gmap state (gmap action A)) s a (x : A) :
  M !! s ≫= (.!! a) = Some x ↔ ∃ Ms, M !! s = Some Ms ∧ Ms !! a = Some x.
Proof.
  destruct (M !! s) as [Ms|]; cbn; split.
  - eauto.
  - by intros (? & [= <-] & ?).
  - done.
  - by intros (? & ? & ?).
Qed.

Lemma exp_value_cons (rs : gmap state Q) (f : state → Q) (s' : state) (p : Q)
    (d : dist) :
  exp_value rs f ((s', p) :: d)
  = p * (default 0 (rs !! s') + gamma * f s') + exp_value rs f d.
Proof. reflexivity. Qed.

Lemma backup_step_finite (V : gmap state num) (s : state) (a : action)
    (Rs : gmap action (gmap state Q)) (rs : gmap state Q)
    (acc : Q) (s' : state) (p r v : Q) :
  R !! s = Some Rs → Rs !! a = Some rs →
  rs !! s' = Some r → V !! s' = Some (Fin v) →
  backup_step R gamma V s a (Fin acc) (s', p)
  = Ok (Fin (Qred (acc + Qred (p * Qred (r + Qred (gamma * v)))))).
Proof.
  intros HR HRs Hr Hv. unfold backup_step.
  rewrite (getitem_lookup _ _ _ HR). cbn [mbind result_bind].
  rewrite (getitem_lookup _ _ _ HRs). cbn [mbind result_bind].
  rewrite (getitem_lookup _ _ _ Hr). cbn [mbind result_bind].
  by rewrite (getitem_lookup _ _ _ Hv).
Qed.

(** The loop over successors, on a finite store. *)
Lemma backup_loop_finite (V : gmap state num) (s : state) (a : action)
    (Rs : gmap action (gmap state Q)) (rs : gmap state Q) (d : dist) (acc : Q) :
  R !! s = Some Rs → Rs !! a = Some rs →
  (∀ kv, kv ∈ d → is_Some (rs !! kv.1) ∧ ∃ v, V !! kv.1 = Some (Fin v)) →
  ∃ q,
    for_each (backup_step R gamma V s a) (Fin acc) d = Ok (Fin q) ∧
    q == acc + exp_value rs (val V) d.
Proof.
  intros HR HRs. revert acc. induction d as [|[s' p] d IH]; intros acc Hd.
  - exists acc. split; [reflexivity|]. cbn. ring.
  - destruct (Hd (s', p) ltac:(left)) as [[r Hr] [v Hv]]. cbn in Hr, Hv.
    cbn [for_each]. rewrite (backup_step_finite V s a Rs rs acc s' p r v) by done.
    cbn [mbind result_bind].
    destruct (IH (Qred (acc + Qred (p * Qred (r + Qred (gamma * v))))))
      as (q & Hrun & Hq).
    { intros kv Hkv. apply Hd. by right. }
    exists q. split; [exact Hrun|]. rewrite Hq, !Qred_correct, exp_value_cons.
    unfold val at 2. rewrite Hv, Hr. change (default 0 (Some r)) with r. ring.
Qed.

Lemma backup_finite (V : gmap state num) (s : state) (a : action)
    (d : dist) (rs : gmap state Q) :
  P !! s ≫= (.!! a) = Some d → R !! s ≫= (.!! a) = Some rs →
  (∀ kv, kv ∈ d → is_Some (rs !! kv.1) ∧ ∃ v, V !! kv.1 = Some (Fin v)) →
  ∃ q, backup P R gamma V s a = Ok (Fin q) ∧ q == qvalue (val V) s a.
Proof.
  intros HP HR Hd. unfold qvalue. rewrite HP, HR.
  apply lookup_bind_Some in HP as (Ps & HPs & HPa).
  apply lookup_bind_Some in HR as (Rs & HRs & HRa).
  unfold backup. rewrite (getitem_lookup _ _ _ HPs). cbn [mbind result_bind].
  rewrite (getitem_lookup _ _ _ HPa). cbn [mbind result_bind].
  destruct (backup_loop_finite V s a Rs rs d 0 HRs HRa Hd) as (q & Hrun & Hq).
  exists q. split; [done|]. rewrite Hq. ring.
Qed.

End Shape.

(** ** Progress: on a well-shaped model the solvers raise nothing *)

Lemma for_each_progress {A B : Type} (body : A → B → result A) (I : A → Prop)
    (xs : list B) (acc : A) :
  (∀ a x, x ∈ xs → I a → ∃ a', body a x = Ok a' ∧ I a') →
  I acc → ∃ acc', for_each body acc xs = Ok acc' ∧ I acc'.
Proof.
  revert acc. induction xs as [|x xs IH]; intros acc Hstep HI.
  - by exists acc.
  - destruct (Hstep acc x ltac:(left) HI) as (a1 & H1 & HI1).
    destruct (IH a1) as (acc' & Hrun & HI'); [|done|].
    + intros a y Hy. apply Hstep. by right.
    + exists acc'. cbn [for_each]. rewrite H1. done.
Qed.

Lemma finite_on_insert (pages : list state) (V : gmap state num) (s : state) (q : Q) :
  finite_on pages V → finite_on pages (<[s := Fin q]> V).
Proof.
  intros HV x Hx. destruct (decide (s = x)) as [->|Hne].
  - exists q. apply lookup_insert_eq.
  - rewrite lookup_insert_ne by done. by apply HV.
Qed.

Lemma finite_on_zero_values (pages : list state) : finite_on pages (zero_values pages).
Proof. intros s Hs. exists 0. by apply zero_values_lookup. Qed.

Section Progress.

Context (pages : list state)
        (P : gmap state (gmap action dist))
        (R : gmap state (gmap action (gmap state Q)))
        (actions : gmap state (list action))
        (terminal_reward : gmap state (option num)) (gamma theta : Q).

Hypothesis Hshape : mdp_shape pages P R actions terminal_reward.

Local Abbreviation visit := (vi_visit P R actions terminal_reward gamma).
Local Abbreviation qval := (qvalue P R gamma).

(** The exact rational that [backup] returns. *)
Definition backup_value (V : gmap state num) (s : state) (a : action) : Q :=
  match backup P R gamma V s a with Ok (Fin x) => x | _ => 0 end.

Lemma backup_shape (V : gmap state num) (s : state) (acts : list action)
    (a : action) :
  s ∈ pages → terminal_reward !! s = Some None →
  actions !! s = Some acts → a ∈ acts → finite_on pages V →
  backup P R gamma V s a = Ok (Fin (backup_value V s a)) ∧
  backup_value V s a == qval (val V) s a.
Proof.
  intros Hs Htr Hacts Ha HV.
  destruct (shape_successors _ _ _ _ _ Hshape s acts a Hs Htr Hacts Ha)
    as (d & rs & HP & HR & Hd).
  destruct (backup_finite P R gamma V s a d rs HP HR) as (q & Hb & Hq).
  - intros kv Hkv. destruct (Hd kv Hkv) as [Hin Hr]. split; [done|].
    by apply HV.
  - unfold backup_value. rewrite Hb. done.
Qed.

(** The greedy loop on a finite store: the maximum is attained at the action
    it returns, which is the first maximiser. *)
Lemma greedy_shape (V : gmap state num) (s : state) (acts : list action) :
  s ∈ pages → terminal_reward !! s = Some None →
  actions !! s = Some acts → finite_on pages V →
  ∃ m a, greedy P R actions gamma V s = Ok (Fin m, a) ∧ a ∈ acts ∧
    m == qval (val V) s a ∧ (∀ b, b ∈ acts → qval (val V) s b <= m) ∧
    first_max acts (backup_value V s) a.
Proof.
  intros Hs Htr Hacts HV.
  destruct (shape_actions _ _ _ _ _ Hshape s Hs Htr) as (acts' & Hacts' & Hne).
  assert (acts' = acts) as -> by congruence.
  assert (Hq : ∀ b, b ∈ acts →
            backup P R gamma V s b = Ok (Fin (backup_value V s b))).
  { intros b Hb. by apply (backup_shape V s acts b). }
  assert (Hrun : ∃ r, greedy P R actions gamma V s = Ok r).
  { unfold greedy. rewrite (getitem_lookup _ _ _ Hacts). cbn [mbind result_bind].
    generalize (NegInf, None : action).
    induction acts as [|b acts IH] in Hq |- *; intros acc; [by eexists|].
    cbn [for_each]. unfold greedy_step at 2. rewrite (Hq b) by left.
    cbn [mbind result_bind]. apply IH. intros c Hc. apply Hq. by right. }
  destruct Hrun as ([m a] & Hrun).
  destruct (greedy_first_max P R actions gamma V s (backup_value V s) acts m a
              Hacts Hne Hq Hrun) as [-> Hfirst].
  assert (Ha : a ∈ acts).
  { destruct Hfirst as (l1 & l2 & -> & _). apply elem_of_app. right. left. }
  exists (backup_value V s a), a. split; [done|]. split; [done|].
  split; [by apply (backup_shape V s acts a)|]. split; [|done].
  intros b Hb. rewrite <- (proj2 (backup_shape V s acts b Hs Htr Hacts Hb HV)).
  destruct Hfirst as (l1 & l2 & -> & H1 & H2).
  apply elem_of_app in Hb as [Hb|[->|Hb]%elem_of_cons].
  - apply Qlt_le_weak. by apply H1.
  - apply Qle_refl.
  - by apply H2.
Qed.

(** A visit of [value_iteration] on a decision page, in full. *)
Lemma vi_visit_shape (st : vi_vars) (s : state) (acts : list action) :
  s ∈ pages → terminal_reward !! s = Some None →
  actions !! s = Some acts → finite_on pages (vi_V st) →
  ∃ m a old,
    vi_V st !! s = Some (Fin old) ∧
    visit st s = Ok (ViVars (<[s := Fin m]> (vi_V st)) (<[s := a]> (vi_policy st))
                       (pymax (vi_delta st) (Fin (Qabs (Qred (old - m)))))) ∧
    a ∈ acts ∧ m == qval (val (vi_V st)) s a ∧
    (∀ b, b ∈ acts → qval (val (vi_V st)) s b <= m).
Proof.
  intros Hs Htr Hacts HV.
  destruct (greedy_shape (vi_V st) s acts Hs Htr Hacts HV)
    as (m & a & Hg & Ha & Hm & Hmax & _).
  destruct (HV s Hs) as [old Hold].
  exists m, a, old. split; [done|]. split; [|done].
  rewrite vi_visit_decision by done. rewrite Hg. cbn [mbind result_bind].
  by rewrite (getitem_lookup _ _ _ Hold).
Qed.

Lemma vi_visit_progress (st : vi_vars) (s : state) :
  s ∈ pages → finite_on pages (vi_V st) →
  ∃ st', visit st s = Ok st' ∧ finite_on pages (vi_V st').
Proof.
  intros Hs HV.
  destruct (shape_terminal _ _ _ _ _ Hshape s Hs) as [[r|] Htr].
  - destruct (shape_rewards _ _ _ _ _ Hshape s r Hs Htr) as [q ->].
    rewrite (vi_visit_terminal _ _ _ _ _ _ _ _ Htr). eexists. split; [done|].
    by apply finite_on_insert.
  - destruct (shape_actions _ _ _ _ _ Hshape s Hs Htr) as (acts & Hacts & _).
    destruct (vi_visit_shape st s acts Hs Htr Hacts HV)
      as (m & a & old & _ & -> & _).
    eexists. split; [done|]. by apply finite_on_insert.
Qed.

Lemma vi_for_each_progress (l : list state) (st : vi_vars) :
  l ⊆ pages → finite_on pages (vi_V st) →
  ∃ st', for_each visit st l = Ok st' ∧ finite_on pages (vi_V st').
Proof.
  intros Hl HV.
  apply (for_each_progress visit (fun st => finite_on pages (vi_V st))); [|done].
  intros a x Hx. apply vi_visit_progress. by apply Hl.
Qed.

Lemma vi_loop_no_raise (fuel : nat) V policy (e : exn) :
  finite_on pages V →
  vi_loop pages P R actions terminal_reward gamma theta fuel V policy
    ≠ Some (Raise e).
Proof.
  revert V policy. induction fuel as [|fuel IH]; intros V policy HV; [done|].
  cbn [vi_loop]. unfold vi_sweep.
  destruct (vi_for_each_progress pages (ViVars V policy (Fin 0))) as (st & -> & HV');
    [done|done|].
  destruct (nlt (vi_delta st) (Fin theta)); [done | by apply IH].
Qed.

End Progress.

Lemma for_each_establish {A B : Type} (body : A → B → result A)
    (K : B → A → Prop) (xs : list B) (acc acc' : A) :
  (∀ a x a', body a x = Ok a' → K x a') →
  (∀ a x a' y, body a x = Ok a' → K y a → K y a') →
  for_each body acc xs = Ok acc' → ∀ y, y ∈ xs → K y acc'.
Proof.
  intros Hest Hkeep. revert acc. induction xs as [|x xs IH]; intros acc; simpl.
  - intros _ y Hy. by apply elem_of_nil in Hy.
  - intros (a1 & H1 & H2)%bind_Ok y [->|Hy]%elem_of_cons.
    + eapply (for_each_ind body (K x)); [| |exact H2].
      * intros a z a' _ HK Hb. by eapply Hkeep.
      * by eapply Hest.
    + by eapply IH.
Qed.

Section PiProgress.

Context (pages : list state)
        (P : gmap state (gmap action dist))
        (R : gmap state (gmap action (gmap state Q)))
        (actions : gmap state (list action))
        (terminal_reward : gmap state (option num)) (gamma theta : Q).

Hypothesis Hshape : mdp_shape pages P R actions terminal_reward.

Local Abbreviation qval := (qvalue P R gamma).

(** The policy gives [s], if it is a decision page, one of its actions. *)
Definition policy_ok_at (policy : gmap state action) (s : state) : Prop :=
  terminal_reward !! s = Some None →
  ∃ a acts, policy !! s = Some a ∧ actions !! s = Some acts ∧ a ∈ acts.

Definition policy_ok (policy : gmap state action) : Prop :=
  ∀ s, s ∈ pages → policy_ok_at policy s.

Lemma pi_init_visit_progress (st : gmap state num * gmap state action) (s : state) :
  s ∈ pages → finite_on pages st.1 →
  ∃ st', pi_init_visit actions terminal_reward st s = Ok st' ∧
    finite_on pages st'.1 ∧ policy_ok_at st'.2 s.
Proof.
  intros Hs HV. unfold pi_init_visit.
  destruct (shape_terminal _ _ _ _ _ Hshape s Hs) as [[r|] Htr];
    rewrite (getitem_lookup _ _ _ Htr); cbn [mbind result_bind].
  - destruct (shape_rewards _ _ _ _ _ Hshape s r Hs Htr) as [q ->].
    eexists. split; [done|]. split; [by apply finite_on_insert|].
    intros Htr'. congruence.
  - destruct (shape_actions _ _ _ _ _ Hshape s Hs Htr) as (acts & Hacts & Hne).
    rewrite (getitem_lookup _ _ _ Hacts). cbn [mbind result_bind].
    destruct acts as [|a acts]; [done|]. eexists. split; [done|]. split; [done|].
    intros _. exists a, (a :: acts). cbn. rewrite lookup_insert_eq.
    split; [done|]. split; [done | left].
Qed.

Lemma pi_init_visit_ok_at (st st' : gmap state num * gmap state action)
    (x : state) :
  pi_init_visit actions terminal_reward st x = Ok st' → policy_ok_at st'.2 x.
Proof.
  unfold pi_init_visit. intros ([r|] & Htr%getitem_Ok & Hv)%bind_Ok.
  - intros Htr'. congruence.
  - apply bind_Ok in Hv as (acts & Hacts%getitem_Ok & Hv).
    destruct acts as [|b acts]; [done|]. injection Hv as <-.
    intros _. exists b, (b :: acts). cbn. rewrite lookup_insert_eq.
    split; [done|]. split; [done | left].
Qed.

Lemma pi_init_visit_keeps_ok (st st' : gmap state num * gmap state action)
    (x y : state) :
  pi_init_visit actions terminal_reward st x = Ok st' →
  policy_ok_at st.2 y → policy_ok_at st'.2 y.
Proof.
  intros Hv Hok. destruct (decide (x = y)) as [->|Hne].
  - by eapply pi_init_visit_ok_at.
  - intros Htr. destruct (Hok Htr) as (a & acts & Hp & Hrest).
    exists a, acts. split; [|done].
    destruct (pi_init_visit_frame actions terminal_reward st st' x y Hv Hne)
      as [_ ->].
    done.
Qed.

Lemma pi_init_progress :
  ∃ V policy, pi_init pages actions terminal_reward = Ok (V, policy) ∧
    finite_on pages V ∧ policy_ok policy.
Proof.
  unfold pi_init.
  destruct (for_each_progress (pi_init_visit actions terminal_reward)
              (fun st => finite_on pages st.1) pages (zero_values pages, ∅))
    as ([V policy] & Hrun & HV).
  - intros st x Hx Hst. destruct (pi_init_visit_progress st x Hx Hst)
      as (st' & Hv & HV' & _). eauto.
  - apply finite_on_zero_values.
  - exists V, policy. split; [done|]. split; [done|]. intros s Hs.
    apply (for_each_establish (pi_init_visit actions terminal_reward)
             (fun y st => policy_ok_at st.2 y) pages _ _
             (fun a x a' => pi_init_visit_ok_at a a' x)
             (fun a x a' y => pi_init_visit_keeps_ok a a' x y) Hrun s Hs).
Qed.

(** Policy evaluation, on a decision page. *)
Lemma pi_eval_visit_shape policy (V : gmap state num) (delta : num) (s : state)
    (a : action) (acts : list action) :
  s ∈ pages → terminal_reward !! s = Some None →
  policy !! s = Some a → actions !! s = Some acts → a ∈ acts →
  finite_on pages V →
  ∃ m old,
    V !! s = Some (Fin old) ∧
    pi_eval_visit P R terminal_reward gamma policy (V, delta) s
    = Ok (<[s := Fin m]> V, pymax delta (Fin (Qabs (Qred (old - m))))) ∧
    m == qval (val V) s a.
Proof.
  intros Hs Htr Hp Hacts Ha HV.
  destruct (backup_shape pages P R actions terminal_reward gamma Hshape V s acts a)
    as [Hb Hq]; try done.
  destruct (HV s Hs) as [old Hold].
  exists (backup_value P R gamma V s a), old. split; [done|]. split; [|done].
  rewrite pi_eval_visit_decision by done.
  rewrite (getitem_lookup _ _ _ Hp). cbn [mbind result_bind fst snd].
  rewrite (getitem_lookup _ _ _ Hold). cbn [mbind result_bind].
  by rewrite Hb.
Qed.

Lemma pi_eval_visit_progress policy (st : gmap state num * num) (s : state) :
  policy_ok policy → s ∈ pages → finite_on pages st.1 →
  ∃ st', pi_eval_visit P R terminal_reward gamma policy st s = Ok st' ∧
    finite_on pages st'.1.
Proof.
  intros Hok Hs HV. destruct st as [V delta].
  destruct (shape_terminal _ _ _ _ _ Hshape s Hs) as [[r|] Htr].
  - rewrite (pi_eval_visit_terminal _ _ _ _ _ _ _ _ Htr). eauto.
  - destruct (Hok s Hs Htr) as (a & acts & Hp & Hacts & Ha).
    destruct (pi_eval_visit_shape policy V delta s a acts)
      as (m & old & _ & -> & _); try done.
    eexists. split; [done|]. by apply finite_on_insert.
Qed.

Lemma pi_evaluate_no_raise (fuel : nat) policy V (e : exn) :
  policy_ok policy → finite_on pages V →
  pi_evaluate pages P R terminal_reward gamma theta fuel policy V ≠ Some (Raise e).
Proof.
  intros Hok. revert V. induction fuel as [|fuel IH]; intros V HV; [done|].
  cbn [pi_evaluate]. unfold pi_eval_sweep.
  destruct (for_each_progress (pi_eval_visit P R terminal_reward gamma policy)
              (fun st => finite_on pages st.1) pages (V, Fin 0))
    as ([V' delta] & -> & HV'); [|done|].
  - intros st x Hx Hst. by apply pi_eval_visit_progress.
  - destruct (nlt delta (Fin theta)); [done | by apply IH].
Qed.

Lemma pi_evaluate_finite (fuel : nat) policy V V' :
  policy_ok policy → finite_on pages V →
  pi_evaluate pages P R terminal_reward gamma theta fuel policy V = Some (Ok V') →
  finite_on pages V'.
Proof.
  intros Hok. revert V. induction fuel as [|fuel IH]; intros V HV; [done|].
  cbn [pi_evaluate]. unfold pi_eval_sweep.
  destruct (for_each_progress (pi_eval_visit P R terminal_reward gamma policy)
              (fun st => finite_on pages st.1) pages (V, Fin 0))
    as ([V1 delta] & -> & HV1); [|done|].
  - intros st x Hx Hst. by apply pi_eval_visit_progress.
  - destruct (nlt delta (Fin theta)); [by intros [= <-] | by apply IH].
Qed.

(** Policy improvement, on a decision page. *)
Lemma pi_improve_visit_shape V policy (stable : bool) (s : state)
    (acts : list action) (old_action : action) :
  s ∈ pages → terminal_reward !! s = Some None →
  actions !! s = Some acts → policy !! s = Some old_action →
  finite_on pages V →
  ∃ m a,
    greedy P R actions gamma V s = Ok (Fin m, a) ∧
    pi_improve_visit P R actions terminal_reward gamma V (policy, stable) s
    = Ok (<[s := a]> policy, if decide (a = old_action) then stable else false) ∧
    a ∈ acts ∧ m == qval (val V) s a ∧
    (∀ b, b ∈ acts → qval (val V) s b <= m).
Proof.
  intros Hs Htr Hacts Hp HV.
  destruct (greedy_shape pages P R actions terminal_reward gamma Hshape V s acts)
    as (m & a & Hg & Ha & Hm & Hmax & _); try done.
  exists m, a. split; [done|]. split; [|done].
  rewrite pi_improve_visit_decision by done. cbn [fst snd].
  rewrite (getitem_lookup _ _ _ Hp). cbn [mbind result_bind].
  by rewrite Hg.
Qed.

Lemma pi_improve_visit_progress V (st : gmap state action * bool) (s : state) :
  finite_on pages V → s ∈ pages → policy_ok st.1 →
  ∃ st', pi_improve_visit P R actions terminal_reward gamma V st s = Ok st' ∧
    policy_ok st'.1.
Proof.
  intros HV Hs Hok. destruct st as [policy stable].
  destruct (shape_terminal _ _ _ _ _ Hshape s Hs) as [[r|] Htr].
  - rewrite (pi_improve_visit_terminal _ _ _ _ _ _ _ _ _ Htr). eauto.
  - destruct (Hok s Hs Htr) as (old_action & acts & Hp & Hacts & _).
    destruct (pi_improve_visit_shape V policy stable s acts old_action)
      as (m & a & _ & -> & Ha & _); try done.
    eexists. split; [done|]. intros y Hy Hty. cbn.
    destruct (decide (s = y)) as [->|Hne].
    + exists a, acts. by rewrite lookup_insert_eq.
    + rewrite lookup_insert_ne by done. by apply Hok.
Qed.

Lemma pi_improve_progress V policy :
  finite_on pages V → policy_ok policy →
  ∃ policy' stable,
    pi_improve pages P R actions terminal_reward gamma V policy
    = Ok (policy', stable) ∧ policy_ok policy'.
Proof.
  intros HV Hok. unfold pi_improve.
  destruct (for_each_progress (pi_improve_visit P R actions terminal_reward gamma V)
              (fun st => policy_ok st.1) pages (policy, true))
    as ([policy' stable] & Hrun & Hok'); [|done|by eauto].
  intros st x Hx Hst. by apply pi_improve_visit_progress.
Qed.

Lemma pi_loop_no_raise (fuel inner : nat) V policy (e : exn) :
  finite_on pages V → policy_ok policy →
  pi_loop pages P R actions terminal_reward gamma theta fuel inner V policy
    ≠ Some (Raise e).
Proof.
  revert V policy. induction fuel as [|fuel IH]; intros V policy HV Hok; [done|].
  cbn [pi_loop].
  destruct (pi_evaluate pages P R terminal_reward gamma theta inner policy V)
    as [[V1|e1]|] eqn:Heval; [| |done].
  - assert (HV1 : finite_on pages V1) by (by eapply pi_evaluate_finite).
    destruct (pi_improve_progress V1 policy HV1 Hok) as (policy' & stable & -> & Hok').
    destruct stable; [done | by apply IH].
  - by apply pi_evaluate_no_raise in Heval.
Qed.

Lemma policy_iteration_no_raise (fuel inner : nat) (e : exn) :
  policy_iteration pages P R actions terminal_reward gamma theta fuel inner
    ≠ Some (Raise e).
Proof.
  unfold policy_iteration.
  destruct pi_init_progress as (V & policy & -> & HV & Hok).
  by apply pi_loop_no_raise.
Qed.

End PiProgress.

(** ** What [build_mdp] builds *)

Lemma lookup_list_to_map_fun {A : Type} (f : state → A) (l : list state) (s : state) :
  (list_to_map ((fun x => (x, f x)) <$> l) : gmap state A) !! s
  = if decide (s ∈ l) then Some (f s) else None.
Proof.
  induction l as [|x l IH]; cbn.
  - rewrite lookup_empty. destruct (decide (s ∈ [])) as [H|]; [|done].
    by apply elem_of_nil in H.
  - destruct (decide (x = s)) as [->|Hne].
    + rewrite lookup_insert_eq. destruct (decide (s ∈ s :: l)) as [|H]; [done|].
      destruct H. left.
    + rewrite lookup_insert_ne by done. rewrite IH.
      destruct (decide (s ∈ l)) as [Hin|Hin], (decide (s ∈ x :: l)) as [Hin'|Hin'];
        try done.
      * destruct Hin'. by right.
      * apply elem_of_cons in Hin' as [->|?]; done.
Qed.

Lemma dict_set_elem (k : state) (v : Q) (d : dist) (kv : state * Q) :
  kv ∈ dict_set k v d → kv = (k, v) ∨ kv ∈ d.
Proof.
  induction d as [|[k' v'] d IH]; cbn.
  - intros ->%list_elem_of_singleton. by left.
  - destruct (decide (k' = k)) as [->|Hne].
    + intros [->|Hin]%elem_of_cons; [by left | right; by right].
    + intros [->|Hin]%elem_of_cons; [right; left|].
      destruct (IH Hin) as [->|Hin']; [by left | right; by right].
Qed.

Lemma dict_set_nonneg (k : state) (v : Q) (d : dist) :
  0 <= v → Forall (fun kv => 0 <= kv.2) d →
  Forall (fun kv => 0 <= kv.2) (dict_set k v d).
Proof.
  intros Hv Hd. apply Forall_forall. intros kv [->|Hin]%dict_set_elem; [done|].
  by apply (proj1 (Forall_forall _ _) Hd).
Qed.

Lemma dist_sum_cons (kv : state * Q) (d : dist) :
  dist_sum (kv :: d) = kv.2 + dist_sum d.
Proof. reflexivity. Qed.

(** An assignment adds at most the assigned probability to the total. *)
Lemma dict_set_sum (k : state) (v : Q) (d : dist) :
  Forall (fun kv => 0 <= kv.2) d →
  dist_sum (dict_set k v d) <= dist_sum d + v.
Proof.
  induction d as [|[k' v'] d IH]; intros Hd.
  - cbn. lra.
  - apply Forall_cons in Hd as [Hv' Hd]. cbn in Hv'. cbn [dict_set].
    destruct (decide (k' = k)) as [->|Hne]; rewrite !dist_sum_cons; cbn [snd].
    + lra.
    + specialize (IH Hd). lra.
Qed.

Lemma foldl_dict_set_elem (share : Q) (others : list state) (d : dist)
    (kv : state * Q) :
  kv ∈ foldl (fun d s2 => dict_set s2 share d) d others →
  kv ∈ d ∨ kv.1 ∈ others.
Proof.
  revert d. induction others as [|x others IH]; intros d; cbn; [by left|].
  intros [[->|Hin]%dict_set_elem|Hin]%IH.
  - right. left.
  - by left.
  - right. by right.
Qed.

Lemma foldl_dict_set_nonneg (share : Q) (others : list state) (d : dist) :
  0 <= share → Forall (fun kv => 0 <= kv.2) d →
  Forall (fun kv => 0 <= kv.2) (foldl (fun d s2 => dict_set s2 share d) d others).
Proof.
  intros Hshare. revert d. induction others as [|x others IH]; intros d Hd; cbn;
    [done|].
  apply IH. by apply dict_set_nonneg.
Qed.

Lemma foldl_dict_set_sum (share : Q) (others : list state) (d : dist) :
  0 <= share → Forall (fun kv => 0 <= kv.2) d →
  dist_sum (foldl (fun d s2 => dict_set s2 share d) d others)
  <= dist_sum d + inject_Z (Z.of_nat (length others)) * share.
Proof.
  intros Hshare. revert d. induction others as [|x others IH]; intros d Hd.
  - cbn [foldl length]. change (inject_Z (Z.of_nat 0)) with 0. lra.
  - cbn [foldl length]. rewrite Nat2Z.inj_succ, <- Z.add_1_r, inject_Z_plus.
    pose proof (IH (dict_set x share d) (dict_set_nonneg _ _ _ Hshare Hd)).
    pose proof (dict_set_sum x share d Hd). change (inject_Z 1) with 1. lra.
Qed.

Section MakeDist.

Context (s : state) (out : list state) (a : state).

Lemma others_of_nonempty :
  NoDup out → length out ≠ 1%nat → a ∈ out → others_of out a ≠ [].
Proof.
  intros Hnodup Hlen Ha Hnil.
  destruct out as [|x [|y rest]]; [by apply elem_of_nil in Ha | done |].
  apply NoDup_cons in Hnodup as [Hx _].
  assert (x ≠ y) by (intros ->; apply Hx; left).
  destruct (decide (x = a)) as [->|Hxa].
  - apply (filter_nil_not_elem_of _ _ y Hnil); [congruence | right; left].
  - apply (filter_nil_not_elem_of _ _ x Hnil); [done | left].
Qed.

Lemma make_dist_ok :
  NoDup out → a ∈ out → ∃ d, make_dist s out a = Ok d.
Proof.
  intros Hnodup Ha. unfold make_dist.
  destruct (decide (length out = 1%nat)) as [|Hlen]; [by eexists|].
  pose proof (others_of_nonempty Hnodup Hlen Ha).
  destruct (others_of out a); [done | by eexists].
Qed.

(** The two shapes of a distribution: one link, or several. *)
Lemma make_dist_cases (d : dist) :
  make_dist s out a = Ok d →
  d = dict_set s 0.10 (dict_set a 0.90 []) ∨
  (others_of out a ≠ [] ∧
   d = foldl (fun d s2 =>
         dict_set s2 (Qred (0.30 / inject_Z (Z.of_nat (length (others_of out a))))) d)
         (dict_set s 0.10 (dict_set a 0.60 [])) (others_of out a)).
Proof.
  unfold make_dist. destruct (decide (length out = 1%nat)) as [|Hlen].
  - intros Hd. left. congruence.
  - destruct (others_of out a) as [|o others] eqn:Hothers; [done|].
    intros Hd. right. split; [done | congruence].
Qed.

Lemma make_dist_keys (d : dist) (kv : state * Q) :
  make_dist s out a = Ok d → a ∈ out → kv ∈ d → kv.1 = s ∨ kv.1 ∈ out.
Proof.
  intros [->|[_ ->]]%make_dist_cases Ha.
  - intros [->|[->|Hin%elem_of_nil]%dict_set_elem]%dict_set_elem;
      [by left | by right | done].
  - intros [[->|[->|Hin%elem_of_nil]%dict_set_elem]%dict_set_elem|Hin]%foldl_dict_set_elem;
      [by left | by right | done |].
    right. unfold others_of in Hin. by apply list_elem_of_filter in Hin as [_ ?].
Qed.

Lemma share_nonneg (n : nat) :
  (0 < n)%nat → 0 <= Qred (0.30 / inject_Z (Z.of_nat n)).
Proof.
  intros Hn. rewrite Qred_correct. apply Qle_shift_div_l.
  - change 0 with (inject_Z 0). rewrite <- Zlt_Qlt. lia.
  - lra.
Qed.

Lemma others_length_pos : others_of out a ≠ [] → (0 < length (others_of out a))%nat.
Proof. destruct (others_of out a); [done | cbn; lia]. Qed.

Lemma make_dist_nonneg (d : dist) :
  make_dist s out a = Ok d → Forall (fun kv => 0 <= kv.2) d.
Proof.
  intros [->|[Hne ->]]%make_dist_cases.
  - apply dict_set_nonneg; [done|].
    apply dict_set_nonneg; [done | constructor].
  - apply foldl_dict_set_nonneg.
    + by apply share_nonneg, others_length_pos.
    + apply dict_set_nonneg; [done|]. apply dict_set_nonneg; [done | constructor].
Qed.

Lemma make_dist_sum (d : dist) :
  make_dist s out a = Ok d → dist_sum d <= 1.
Proof.
  intros [->|[Hne ->]]%make_dist_cases.
  - pose proof (dict_set_sum s 0.10 (dict_set a 0.90 [])
                  (dict_set_nonneg a 0.90 [] ltac:(done) ltac:(constructor))).
    pose proof (dict_set_sum a 0.90 [] ltac:(constructor)) as H0.
    change (dist_sum []) with 0 in H0. lra.
  - apply others_length_pos in Hne.
    set (n := inject_Z (Z.of_nat (length (others_of out a)))).
    assert (Hn : 0 < n).
    { unfold n. change 0 with (inject_Z 0). rewrite <- Zlt_Qlt. lia. }
    pose proof (share_nonneg _ Hne) as Hshare. fold n in Hshare.
    assert (Hbase : Forall (fun kv => 0 <= kv.2) (dict_set s 0.10 (dict_set a 0.60 []))).
    { apply dict_set_nonneg; [done|]. apply dict_set_nonneg; [done | constructor]. }
    pose proof (foldl_dict_set_sum _ (others_of out a) _ Hshare Hbase) as Hsum.
    fold n in Hsum.
    pose proof (dict_set_sum s 0.10 (dict_set a 0.60 [])
                  (dict_set_nonneg a 0.60 [] ltac:(done) ltac:(constructor))).
    pose proof (dict_set_sum a 0.60 [] ltac:(constructor)) as H0.
    change (dist_sum []) with 0 in H0.
    assert (n * Qred (0.30 / n) == 0.30) as Heq.
    { rewrite Qred_correct. field. lra. }
    lra.
Qed.

End MakeDist.

Lemma penalties_lookup (d : dist) (s' : state) :
  is_Some (penalties d !! s') ↔ ∃ p, (s', p) ∈ d.
Proof.
  unfold penalties. induction d as [|[k p] d IH]; cbn.
  - rewrite lookup_empty. split; [by intros [? ?] | by intros [? ?%elem_of_nil]].
  - destruct (decide (k = s')) as [->|Hne].
    + rewrite lookup_insert_eq. split; [|by eauto]. intros _. exists p. left.
    + rewrite lookup_insert_ne by done. rewrite IH. split.
      * intros [q Hq]. exists q. by right.
      * intros [q [[= ? ?]|Hq]%elem_of_cons]; [done | by exists q].
Qed.

(** What [crawl_mdp] guarantees about its three results. *)
Record crawled (pages : list state) (links : gmap state (list state))
    (terminal_reward : gmap state (option num)) : Prop := Crawled {
  crawled_nodup : NoDup pages;
  crawled_links : ∀ s, s ∈ pages →
    ∃ out, links !! s = Some out ∧ NoDup out ∧ ∀ l, l ∈ out → l ∈ pages;
  crawled_reward : ∀ s, s ∈ pages → is_Some (terminal_reward !! s);
}.

(** What the loop of [crawl_mdp] has stored for the files it has read, and
    that it leaves the other entries alone. *)
Lemma crawl_for_each (pages : list state) (hrefs : string → list string)
    (reward_tag : string → option string) (l : list state)
    (acc acc' : gmap state (list state) * gmap state (option num)) (s : state) :
  for_each (crawl_page pages hrefs reward_tag) acc l = Ok acc' →
  (s ∈ l →
   acc'.1 !! s = Some (filter (fun l => l ∈ pages) (remove_dups (hrefs s))) ∧
   match reward_tag s with
   | Some t => ∃ r, py_float t = Ok r ∧ acc'.2 !! s = Some (Some r)
   | None => acc'.2 !! s = Some None
   end) ∧
  (s ∉ l → acc'.1 !! s = acc.1 !! s ∧ acc'.2 !! s = acc.2 !! s).
Proof.
  revert acc. induction l as [|x l IH]; intros acc.
  - intros [= <-]. split; [by intros ?%elem_of_nil | done].
  - cbn [for_each]. intros (acc1 & Hx & Hrest)%bind_Ok.
    destruct (IH acc1 Hrest) as [Hin Hout].
    assert (Hstep : acc1.1 !! x
                    = Some (filter (fun l => l ∈ pages) (remove_dups (hrefs x))) ∧
                    match reward_tag x with
                    | Some t => ∃ r, py_float t = Ok r ∧ acc1.2 !! x = Some (Some r)
                    | None => acc1.2 !! x = Some None
                    end ∧
                    ∀ y, y ≠ x → acc1.1 !! y = acc.1 !! y ∧ acc1.2 !! y = acc.2 !! y).
    { unfold crawl_page in Hx. destruct (reward_tag x) as [t|].
      - apply bind_Ok in Hx as (r & Hr & [= <-]). cbn [fst snd].
        rewrite !lookup_insert_eq. split; [done|]. split; [by exists r|].
        intros y Hy. by rewrite !lookup_insert_ne.
      - injection Hx as <-. cbn [fst snd]. rewrite !lookup_insert_eq.
        split; [done|]. split; [done|]. intros y Hy. by rewrite !lookup_insert_ne. }
    destruct Hstep as (Hlinks & Hreward & Hframe). split.
    + intros Hs. destruct (decide (s ∈ l)) as [Hl|Hl]; [by apply Hin|].
      apply elem_of_cons in Hs as [->|Hs]; [|done].
      destruct (Hout Hl) as [-> Hsame]. split; [done|].
      destruct (reward_tag x) as [t|]; [|congruence].
      destruct Hreward as (r & Hr & Hacc). exists r. split; [done | congruence].
    + intros Hs. apply not_elem_of_cons in Hs as [Hne Hl].
      destruct (Hout Hl) as [-> ->]. by apply Hframe.
Qed.

Lemma crawl_mdp_crawled (listing : list string) (hrefs : string → list string)
    (reward_tag : string → option string) pages links terminal_reward :
  crawl_mdp listing hrefs reward_tag = Ok (pages, links, terminal_reward) →
  crawled pages links terminal_reward.
Proof.
  unfold crawl_mdp.
  set (pgs := remove_dups (filter (fun fn => endswith fn ".html" = true) listing)).
  intros ([lk tr] & Hloop & [= <- <- <-])%bind_Ok. split.
  - apply NoDup_remove_dups.
  - intros s Hs. destruct (crawl_for_each pgs hrefs reward_tag pgs _ _ s Hloop)
      as [[Hlinks _] _]; [done|].
    eexists. split; [exact Hlinks|]. split.
    + apply NoDup_filter, NoDup_remove_dups.
    + intros l Hl. by apply list_elem_of_filter in Hl as [? _].
  - intros s Hs. destruct (crawl_for_each pgs hrefs reward_tag pgs _ _ s Hloop)
      as [[_ Hreward] _]; [done|].
    cbn [snd] in Hreward. destruct (reward_tag s) as [t|]; [|by eexists].
    destruct Hreward as (r & _ & Hr). by eexists.
Qed.

(** The entries of one page, as the solvers need them: a non-empty action
    list; for each action a distribution over pages with non-negative
    probabilities of sum at most 1 and a reward for each successor; and no
    successor outside the pages anywhere. *)
Definition entries_ok (pages : list state)
    (e : gmap action dist * gmap action (gmap state Q) * list action) : Prop :=
  e.2 ≠ [] ∧
  (∀ a, a ∈ e.2 → ∃ d rs, e.1.1 !! a = Some d ∧ e.1.2 !! a = Some rs ∧
     (∀ kv, kv ∈ d → is_Some (rs !! kv.1) ∧ 0 <= kv.2) ∧ dist_sum d <= 1) ∧
  (∀ a d kv, e.1.1 !! a = Some d → kv ∈ d → kv.1 ∈ pages) ∧
  (∀ a rs s', e.1.2 !! a = Some rs → is_Some (rs !! s') → s' ∈ pages).

Lemma noop_entries_ok (pages : list state) (s : state) :
  s ∈ pages → entries_ok pages (noop_entries s).
Proof.
  intros Hs. unfold noop_entries, entries_ok. cbn [fst snd].
  split; [done|]. split; [|split].
  - intros a ->%list_elem_of_singleton. exists [(s, 1)], {[ s := 0 ]}.
    rewrite !lookup_singleton_eq. split; [done|]. split; [done|]. split.
    + intros kv ->%list_elem_of_singleton. cbn. by rewrite lookup_singleton_eq.
    + cbn. lra.
  - intros a d kv [_ Hd]%lookup_singleton_Some Hkv. subst d.
    by apply list_elem_of_singleton in Hkv as ->.
  - intros a rs s' [_ Hrs]%lookup_singleton_Some [x Hx]. subst rs.
    apply lookup_singleton_Some in Hx as [Hx _]. by subst s'.
Qed.

Section AddLink.

Context (pages : list state) (s : state) (out : list state).
Hypothesis Hs : s ∈ pages.
Hypothesis Hout : ∀ l, l ∈ out → l ∈ pages.
Hypothesis Hnodup : NoDup out.

(** Every entry comes from [make_dist] on one of the links. *)
Definition from_links
    (acc : gmap action dist * gmap action (gmap state Q) * list action) : Prop :=
  (∀ x, x ∈ acc.2 → ∃ a d, x = Some a ∧ a ∈ out ∧ make_dist s out a = Ok d ∧
     acc.1.1 !! x = Some d ∧ acc.1.2 !! x = Some (penalties d)) ∧
  (∀ x d, acc.1.1 !! x = Some d → ∃ a, a ∈ out ∧ make_dist s out a = Ok d) ∧
  (∀ x rs, acc.1.2 !! x = Some rs →
     ∃ a d, a ∈ out ∧ make_dist s out a = Ok d ∧ rs = penalties d).

Lemma add_link_from_links acc (a : state) :
  a ∈ out → from_links acc →
  ∃ acc', add_link s out acc a = Ok acc' ∧ from_links acc' ∧
    acc'.2 = acc.2 ++ [Some a].
Proof.
  intros Ha (Hacts & HP & HR). unfold add_link.
  destruct (make_dist_ok s out a Hnodup Ha) as [d Hd]. rewrite Hd.
  cbn [mbind result_bind]. eexists. split; [done|]. split; [|done].
  unfold from_links. cbn [fst snd]. split; [|split].
  - intros x [Hx| ->%list_elem_of_singleton]%elem_of_app.
    + destruct (Hacts x Hx) as (b & db & -> & Hb & Hdb & HPb & HRb).
      exists b, db. destruct (decide (a = b)) as [->|Hne].
      * assert (db = d) as -> by congruence. by rewrite !lookup_insert_eq.
      * rewrite !lookup_insert_ne by congruence. done.
    + exists a, d. by rewrite !lookup_insert_eq.
  - intros x dx. destruct (decide (Some a = x)) as [<-|Hne].
    + rewrite lookup_insert_eq. intros [= <-]. eauto.
    + rewrite lookup_insert_ne by done. apply HP.
  - intros x rs. destruct (decide (Some a = x)) as [<-|Hne].
    + rewrite lookup_insert_eq. intros [= <-]. eauto.
    + rewrite lookup_insert_ne by done. apply HR.
Qed.

Lemma add_link_loop (l : list state) acc :
  (∀ a, a ∈ l → a ∈ out) → from_links acc →
  ∃ acc', for_each (add_link s out) acc l = Ok acc' ∧ from_links acc' ∧
    acc'.2 = acc.2 ++ (Some <$> l).
Proof.
  revert acc. induction l as [|a l IH]; intros acc Hl Hacc.
  - exists acc. cbn. by rewrite app_nil_r.
  - destruct (add_link_from_links acc a (Hl a ltac:(left)) Hacc)
      as (acc1 & H1 & Hacc1 & Hacts1).
    destruct (IH acc1) as (acc' & Hrun & Hacc' & Hacts'); [|done|].
    + intros b Hb. apply Hl. by right.
    + exists acc'. cbn [for_each]. rewrite H1. cbn [mbind result_bind].
      split; [done|]. split; [done|]. rewrite Hacts', Hacts1. cbn.
      by rewrite <- app_assoc.
Qed.

Lemma from_links_entries_ok acc :
  acc.2 ≠ [] → from_links acc → entries_ok pages acc.
Proof.
  intros Hne (Hacts & HP & HR). split; [done|]. split; [|split].
  - intros x Hx. destruct (Hacts x Hx) as (a & d & -> & Ha & Hd & HPa & HRa).
    exists d, (penalties d). split; [done|]. split; [done|]. split.
    + intros kv Hkv. split.
      * apply penalties_lookup. exists kv.2. by destruct kv.
      * by apply (proj1 (Forall_forall _ _) (make_dist_nonneg s out a d Hd)).
    + by eapply make_dist_sum.
  - intros x d kv Hd Hkv. destruct (HP x d Hd) as (a & Ha & Hmk).
    destruct (make_dist_keys s out a d kv Hmk Ha Hkv) as [->|Hin]; [done|].
    by apply Hout.
  - intros x rs s' Hrs Hs'. destruct (HR x rs Hrs) as (a & d & Ha & Hmk & ->).
    apply penalties_lookup in Hs' as [p Hp].
    destruct (make_dist_keys s out a d (s', p) Hmk Ha Hp) as [Heq|Hin].
    + cbn in Heq. by subst s'.
    + by apply Hout.
Qed.

End AddLink.

Section Build.

Context (pages : list state) (links : gmap state (list state))
        (terminal_reward : gmap state (option num)).
Hypothesis Hcrawled : crawled pages links terminal_reward.

Lemma page_entries_ok (s : state) :
  s ∈ pages →
  ∃ e, page_entries links terminal_reward s = Ok e ∧ entries_ok pages e.
Proof.
  intros Hs. unfold page_entries.
  destruct (crawled_links _ _ _ Hcrawled s Hs) as (out & Hlinks & Hnodup & Hout).
  destruct (crawled_reward _ _ _ Hcrawled s Hs) as [tr Htr].
  rewrite (getitem_lookup _ _ _ Hlinks). cbn [mbind result_bind].
  rewrite (getitem_lookup _ _ _ Htr). cbn [mbind result_bind].
  destruct tr as [r|]; [eexists; split; [done | by apply noop_entries_ok]|].
  destruct out as [|o rest];
    [eexists; split; [done | by apply noop_entries_ok]|].
  set (out := o :: rest) in *.
  destruct (add_link_loop s out Hnodup out (∅, ∅, []))
    as (acc' & Hrun & Hacc' & Hacts'); [done| |].
  - split; [|split]; cbn [fst snd].
    + by intros x ?%elem_of_nil.
    + intros x d. by rewrite lookup_empty.
    + intros x rs. by rewrite lookup_empty.
  - exists acc'. split; [by rewrite Hrun|].
    apply (from_links_entries_ok pages s out Hs Hout); [|done].
    rewrite Hacts'. done.
Qed.

(** The entries of a page in the built model are its [page_entries]. *)
Definition has_entries (m : mdp) (s : state) : Prop :=
  ∃ e, page_entries links terminal_reward s = Ok e ∧
    mdp_P m !! s = Some e.1.1 ∧ mdp_R m !! s = Some e.1.2 ∧
    mdp_actions m !! s = Some e.2.

Lemma build_page_has_entries (m m' : mdp) (x : state) :
  build_page links terminal_reward m x = Ok m' → has_entries m' x.
Proof.
  unfold build_page. intros ([[Ps Rs] acts] & He & [= <-])%bind_Ok.
  exists (Ps, Rs, acts). cbn. by rewrite !lookup_insert_eq.
Qed.

Lemma build_page_keeps_entries (m m' : mdp) (x y : state) :
  build_page links terminal_reward m x = Ok m' →
  has_entries m y → has_entries m' y.
Proof.
  intros Hb Hy. destruct (decide (x = y)) as [->|Hne].
  - by eapply build_page_has_entries.
  - unfold build_page in Hb. apply bind_Ok in Hb as ([[Ps Rs] acts] & He & [= <-]).
    destruct Hy as (e & Hpe & HP & HR & Hacts). exists e. cbn.
    by rewrite !lookup_insert_ne.
Qed.

(** Only pages get entries. *)
Definition only_pages (l : list state) (m : mdp) : Prop :=
  (∀ s, is_Some (mdp_P m !! s) → s ∈ l) ∧ (∀ s, is_Some (mdp_R m !! s) → s ∈ l).

Lemma build_mdp_ok :
  ∃ m, build_mdp pages links terminal_reward = Ok m ∧
    (∀ s, s ∈ pages → has_entries m s) ∧ only_pages pages m.
Proof.
  unfold build_mdp.
  destruct (for_each_progress (build_page links terminal_reward)
              (only_pages pages) pages (Mdp ∅ ∅ ∅)) as (m & Hrun & Honly).
  - intros m x Hx [HP HR]. destruct (page_entries_ok x Hx) as ([[Ps Rs] acts] & He & _).
    unfold build_page. rewrite He. cbn [mbind result_bind]. eexists.
    split; [done|]. split; cbn; intros y.
    + destruct (decide (x = y)) as [->|Hne]; [done|].
      rewrite lookup_insert_ne by done. apply HP.
    + destruct (decide (x = y)) as [->|Hne]; [done|].
      rewrite lookup_insert_ne by done. apply HR.
  - split; cbn; intros s; rewrite lookup_empty; by intros [? ?].
  - exists m. split; [done|]. split; [|done]. intros s Hs.
    apply (for_each_establish (build_page links terminal_reward)
             (fun y m => has_entries m y) pages _ _
             (fun a x a' => build_page_has_entries a a' x)
             (fun a x a' y => build_page_keeps_entries a a' x y) Hrun s Hs).
Qed.

End Build.

(** Probabilities are non-negative and sum to at most 1 (what a contraction
    needs), for the actions of the decision pages. *)
Definition substochastic (pages : list state) (P : gmap state (gmap action dist))
    (actions : gmap state (list action))
    (terminal_reward : gmap state (option num)) : Prop :=
  ∀ s acts a d, s ∈ pages → terminal_reward !! s = Some None →
    actions !! s = Some acts → a ∈ acts → P !! s ≫= (.!! a) = Some d →
    Forall (fun kv => 0 <= kv.2) d ∧ dist_sum d <= 1.

(** No successor lies outside the pages, in [P] or in [R]. *)
Definition successors_closed (pages : list state) (m : mdp) : Prop :=
  (∀ s a d kv, mdp_P m !! s ≫= (.!! a) = Some d → kv ∈ d → kv.1 ∈ pages) ∧
  (∀ s a rs s', mdp_R m !! s ≫= (.!! a) = Some rs → is_Some (rs !! s') →
     s' ∈ pages).

(** Every terminal reward is a finite float. *)
Definition finite_rewards (pages : list state)
    (terminal_reward : gmap state (option num)) : Prop :=
  ∀ s r, s ∈ pages → terminal_reward !! s = Some (Some r) → ∃ q, r = Fin q.

Section BuildShape.

Context (pages : list state) (links : gmap state (list state))
        (terminal_reward : gmap state (option num)).
Hypothesis Hcrawled : crawled pages links terminal_reward.

Lemma build_mdp_keys :
  ∃ m, build_mdp pages links terminal_reward = Ok m ∧
    mdp_keys pages (mdp_P m) (mdp_R m) (mdp_actions m) terminal_reward ∧
    substochastic pages (mdp_P m) (mdp_actions m) terminal_reward ∧
    successors_closed pages m.
Proof.
  destruct (build_mdp_ok pages links terminal_reward Hcrawled)
    as (m & Hrun & Hentries & [HonlyP HonlyR]).
  assert (Hpage : ∀ s, s ∈ pages → ∃ e,
    entries_ok pages e ∧ mdp_P m !! s = Some e.1.1 ∧ mdp_R m !! s = Some e.1.2 ∧
    mdp_actions m !! s = Some e.2).
  { intros s Hs. destruct (Hentries s Hs) as (e & He & HP & HR & Hacts).
    destruct (page_entries_ok pages links terminal_reward Hcrawled s Hs)
      as (e' & He' & Hok).
    assert (e' = e) as -> by congruence. by exists e. }
  exists m. split; [done|]. split; [|split; [|split]].
  - split.
    + apply (crawled_reward _ _ _ Hcrawled).
    + intros s Hs _. destruct (Hpage s Hs) as (e & [Hne _] & _ & _ & Hacts).
      by exists e.2.
    + intros s acts a Hs _ Hacts Ha.
      destruct (Hpage s Hs) as (e & (_ & Hact & Hclosed & _) & HP & HR & Hacts').
      assert (acts = e.2) as -> by congruence.
      destruct (Hact a Ha) as (d & rs & Hd & Hrs & Hkv & _).
      exists d, rs. rewrite HP, HR. cbn. split; [done|]. split; [done|].
      intros kv Hin. split; [by eapply Hclosed | by apply Hkv].
  - intros s acts a d Hs _ Hacts Ha HPd.
    destruct (Hpage s Hs) as (e & (_ & Hact & _) & HP & HR & Hacts').
    assert (acts = e.2) as -> by congruence.
    destruct (Hact a Ha) as (d' & rs & Hd & Hrs & Hkv & Hsum).
    rewrite HP in HPd. cbn in HPd. assert (d' = d) as -> by congruence.
    split; [|done]. apply Forall_forall. intros kv Hin. by apply Hkv.
  - intros s a d kv HPd Hin.
    apply lookup_bind_Some in HPd as (Ps & HPs & HPa).
    assert (Hs : s ∈ pages) by (apply HonlyP; by eexists).
    destruct (Hpage s Hs) as (e & (_ & _ & Hclosed & _) & HP & _).
    assert (Ps = e.1.1) as -> by congruence. by eapply Hclosed.
  - intros s a rs s' HRrs Hin.
    apply lookup_bind_Some in HRrs as (Rs & HRs & HRa).
    assert (Hs : s ∈ pages) by (apply HonlyR; by eexists).
    destruct (Hpage s Hs) as (e & (_ & _ & _ & Hclosed) & _ & HR & _).
    assert (Rs = e.1.2) as -> by congruence. by eapply Hclosed.
Qed.

Lemma build_mdp_shape :
  finite_rewards pages terminal_reward →
  ∃ m, build_mdp pages links terminal_reward = Ok m ∧
    mdp_shape pages (mdp_P m) (mdp_R m) (mdp_actions m) terminal_reward ∧
    substochastic pages (mdp_P m) (mdp_actions m) terminal_reward ∧
    successors_closed pages m.
Proof.
  intros Hfinite. destruct build_mdp_keys as (m & Hrun & Hkeys & Hsub & Hclosed).
  exists m. split; [done|]. split; [|done]. by apply mdp_keys_shape.
Qed.

End BuildShape.

(** ** Lookups of [value_iteration] *)

(** Every page has a value, finite or not. *)
Definition defined_on (pages : list state) (V : gmap state num) : Prop :=
  ∀ s, s ∈ pages → is_Some (V !! s).

Lemma defined_on_insert (pages : list state) (V : gmap state num) (s : state)
    (v : num) :
  defined_on pages V → defined_on pages (<[s := v]> V).
Proof.
  intros HV x Hx. destruct (decide (s = x)) as [->|Hne].
  - rewrite lookup_insert_eq. by eexists.
  - rewrite lookup_insert_ne by done. by apply HV.
Qed.

Lemma finite_on_defined_on (pages : list state) (V : gmap state num) :
  finite_on pages V → defined_on pages V.
Proof. intros HV s Hs. destruct (HV s Hs) as [q Hq]. by eexists. Qed.

Section Keys.

Context (pages : list state)
        (P : gmap state (gmap action dist))
        (R : gmap state (gmap action (gmap state Q)))
        (actions : gmap state (list action))
        (terminal_reward : gmap state (option num)) (gamma theta : Q).

Hypothesis Hkeys : mdp_keys pages P R actions terminal_reward.

Lemma backup_defined (V : gmap state num) (s : state) (acts : list action)
    (a : action) :
  s ∈ pages → terminal_reward !! s = Some None → actions !! s = Some acts →
  a ∈ acts → defined_on pages V →
  ∃ v, backup P R gamma V s a = Ok v.
Proof.
  intros Hs Htr Hacts Ha HV.
  destruct (keys_successors _ _ _ _ _ Hkeys s acts a Hs Htr Hacts Ha)
    as (d & rs & HP & HR & Hd).
  apply lookup_bind_Some in HP as (Ps & HPs & HPa).
  apply lookup_bind_Some in HR as (Rs & HRs & HRa).
  unfold backup. rewrite (getitem_lookup _ _ _ HPs). cbn [mbind result_bind].
  rewrite (getitem_lookup _ _ _ HPa). cbn [mbind result_bind].
  destruct (for_each_progress (backup_step R gamma V s a) (fun _ => True) d (Fin 0))
    as (v & Hv & _); [|done|by exists v].
  intros value [s' p] Hkv _. destruct (Hd _ Hkv) as [Hs' [r Hr]].
  destruct (HV s' Hs') as [v Hv]. cbn [fst] in *. eexists. split; [|done].
  unfold backup_step. rewrite (getitem_lookup _ _ _ HRs). cbn [mbind result_bind].
  rewrite (getitem_lookup _ _ _ HRa). cbn [mbind result_bind].
  rewrite (getitem_lookup _ _ _ Hr). cbn [mbind result_bind].
  by rewrite (getitem_lookup _ _ _ Hv).
Qed.

Lemma greedy_defined (V : gmap state num) (s : state) :
  s ∈ pages → terminal_reward !! s = Some None → defined_on pages V →
  ∃ best, greedy P R actions gamma V s = Ok best.
Proof.
  intros Hs Htr HV.
  destruct (keys_actions _ _ _ _ _ Hkeys s Hs Htr) as (acts & Hacts & _).
  unfold greedy. rewrite (getitem_lookup _ _ _ Hacts). cbn [mbind result_bind].
  destruct (for_each_progress (greedy_step P R gamma V s) (fun _ => True) acts
              (NegInf, None)) as (best & Hbest & _); [|done|by exists best].
  intros acc a Ha _. destruct (backup_defined V s acts a) as [v Hv]; try done.
  eexists. split; [|done]. unfold greedy_step. by rewrite Hv.
Qed.

Lemma vi_visit_defined (st : vi_vars) (s : state) :
  s ∈ pages → defined_on pages (vi_V st) →
  ∃ st', vi_visit P R actions terminal_reward gamma st s = Ok st' ∧
    defined_on pages (vi_V st').
Proof.
  intros Hs HV.
  destruct (keys_terminal _ _ _ _ _ Hkeys s Hs) as [[r|] Htr].
  - rewrite (vi_visit_terminal _ _ _ _ _ _ _ _ Htr). eexists. split; [done|].
    by apply defined_on_insert.
  - rewrite vi_visit_decision by done.
    destruct (greedy_defined (vi_V st) s Hs Htr HV) as [[m a] ->].
    destruct (HV s Hs) as [old Hold]. cbn [mbind result_bind].
    rewrite (getitem_lookup _ _ _ Hold). cbn [mbind result_bind].
    eexists. split; [done|]. by apply defined_on_insert.
Qed.

(** [value_iteration] raises no exception, whatever the values are. *)
Lemma vi_loop_never_raises (fuel : nat) V policy (e : exn) :
  defined_on pages V →
  vi_loop pages P R actions terminal_reward gamma theta fuel V policy
    ≠ Some (Raise e).
Proof.
  revert V policy. induction fuel as [|fuel IH]; intros V policy HV; [done|].
  cbn [vi_loop]. unfold vi_sweep.
  destruct (for_each_progress (vi_visit P R actions terminal_reward gamma)
              (fun st => defined_on pages (vi_V st)) pages (ViVars V policy (Fin 0)))
    as (st & -> & HV'); [|done|].
  - intros st x Hx Hst. by apply vi_visit_defined.
  - destruct (nlt (vi_delta st) (Fin theta)); [done | by apply IH].
Qed.

End Keys.

(** ** Crawled models *)

(** A page that links to a terminal page. *)
Module CrawlExample.
Definition listing : list string := ["a.html"; "notes.txt"; "t.html"].
Definition hrefs (fn : string) : list string :=
  if decide (fn = "a.html") then ["t.html"; "missing.html"] else [].
Definition links : gmap state (list state) :=
  {[ "a.html" := ["t.html"]; "t.html" := [] ]}.
(** The reward tag of [t.html] holds [content]. *)
Definition reward_tag (content : string) (fn : string) : option string :=
  if decide (fn = "t.html") then Some content else None.
(** A minus sign and [n] nines. *)
Fixpoint nines (n : nat) : string :=
  match n with
  | O => EmptyString
  | S n' => String "9" (nines n')
  end.
Definition huge : string := String "-" (nines 400).
End CrawlExample.

(** C10, as worded, fails for [policy_iteration].  A reward tag of 400
    nines after a minus sign is beyond the range of a double, so [float]
    returns [-inf] and [crawl_mdp] stores it as the terminal reward of
    [t.html].  On the model that [build_mdp] makes of it, policy evaluation
    gives [a.html] the value [-inf], policy improvement finds no action whose
    value is greater than [-inf] and stores [policy[a.html] = None], and the
    next policy evaluation looks up [P[a.html][None]], which is missing:
    [KeyError]. *)
Lemma infinite_reward_raises_key_error :
  ∃ links terminal_reward m,
    crawl_mdp CrawlExample.listing CrawlExample.hrefs
      (CrawlExample.reward_tag CrawlExample.huge)
    = Ok (["a.html"; "t.html"], links, terminal_reward) ∧
    terminal_reward !! "t.html" = Some (Some NegInf) ∧
    build_mdp ["a.html"; "t.html"] links terminal_reward = Ok m ∧
    mdp_P m !! "a.html" ≫= (.!! None) = None ∧
    policy_iteration ["a.html"; "t.html"] (mdp_P m) (mdp_R m) (mdp_actions m)
      terminal_reward GAMMA THRESHOLD 2 2 = Some (Raise KeyError).
Proof.
  eexists _, _, _. split; [vm_compute; reflexivity|].
  split; [vm_compute; reflexivity|]. split; [vm_compute; reflexivity|].
  split; vm_compute; reflexivity.
Qed.

(** C10, amended.  Whenever [crawl_mdp] returns (it raises [ValueError] on a
    reward tag that is no number), [build_mdp] succeeds on its results and
    every successor state that is a key of some [P[s][a]] or [R[s][a]] of the
    model is one of the pages.  On that model [value_iteration] raises no
    exception, whatever [gamma], [theta] and the number of sweeps; and
    [policy_iteration] raises none when every terminal reward is finite. *)
Theorem crawl_build_successor_closure
    (listing : list string) (hrefs : string → list string)
    (reward_tag : string → option string)
    (pages : list state) (links : gmap state (list state))
    (terminal_reward : gmap state (option num)) :
  crawl_mdp listing hrefs reward_tag = Ok (pages, links, terminal_reward) →
  ∃ m, build_mdp pages links terminal_reward = Ok m ∧
    successors_closed pages m ∧
    (∀ gamma theta fuel e,
       value_iteration pages (mdp_P m) (mdp_R m) (mdp_actions m)
         terminal_reward gamma theta fuel ≠ Some (Raise e)) ∧
    (finite_rewards pages terminal_reward →
     ∀ gamma theta fuel inner e,
       policy_iteration pages (mdp_P m) (mdp_R m) (mdp_actions m)
         terminal_reward gamma theta fuel inner ≠ Some (Raise e)).
Proof.
  intros Hcrawl. pose proof (crawl_mdp_crawled _ _ _ _ _ _ Hcrawl) as Hcrawled.
  destruct (build_mdp_keys pages links terminal_reward Hcrawled)
    as (m & Hrun & Hkeys & _ & Hclosed).
  exists m. split; [done|]. split; [done|]. split.
  - intros gamma theta fuel e. unfold value_iteration.
    apply (vi_loop_never_raises pages _ _ _ _ gamma theta Hkeys).
    apply finite_on_defined_on, finite_on_zero_values.
  - intros Hfinite gamma theta fuel inner e.
    apply (policy_iteration_no_raise pages _ _ _ _ gamma theta).
    by apply mdp_keys_shape.
Qed.

Lemma CrawlExample_crawl :
  crawl_mdp CrawlExample.listing CrawlExample.hrefs (CrawlExample.reward_tag "10")
  = Ok (["a.html"; "t.html"], CrawlExample.links,
        {[ "a.html" := None; "t.html" := Some (Fin 10) ]}).
Proof. vm_compute. reflexivity. Qed.

Lemma crawl_build_successor_closure_witness :
  ∃ m, build_mdp ["a.html"; "t.html"] CrawlExample.links
         {[ "a.html" := None; "t.html" := Some (Fin 10) ]} = Ok m ∧
    successors_closed ["a.html"; "t.html"] m ∧
    (∀ fuel e,
       value_iteration ["a.html"; "t.html"] (mdp_P m) (mdp_R m) (mdp_actions m)
         {[ "a.html" := None; "t.html" := Some (Fin 10) ]} GAMMA THRESHOLD fuel
       ≠ Some (Raise e)) ∧
    (∀ fuel inner e,
       policy_iteration ["a.html"; "t.html"] (mdp_P m) (mdp_R m) (mdp_actions m)
         {[ "a.html" := None; "t.html" := Some (Fin 10) ]} GAMMA THRESHOLD fuel inner
       ≠ Some (Raise e)).
Proof.
  destruct (crawl_build_successor_closure _ _ _ _ _ _ CrawlExample_crawl)
    as (m & Hbuild & Hclosed & Hvi & Hpi).
  exists m. split; [done|]. split; [done|]. split.
  - intros fuel e. apply Hvi.
  - intros fuel inner e. apply Hpi.
    intros s r Hs Hr.
    apply elem_of_cons in Hs as [->|Hs]; [by vm_compute in Hr|].
    apply elem_of_cons in Hs as [->|Hs]; [|by apply elem_of_nil in Hs].
    vm_compute in Hr. injection Hr as <-. by eexists.
Defined.

(** ** Contraction *)

(** [g ^ n]. *)
Fixpoint qpow (g : Q) (n : nat) : Q :=
  match n with
  | O => 1
  | S n' => g * qpow g n'
  end.

Lemma qpow_nonneg (g : Q) (n : nat) : 0 <= g → 0 <= qpow g n.
Proof. intros Hg. induction n as [|n IH]; cbn [qpow]; [lra | nra]. Qed.

(** Bernoulli's inequality, in the form [g^n * (1 + n (1 - g)) <= 1]. *)
Lemma qpow_bernoulli (g : Q) (n : nat) :
  0 <= g → g <= 1 →
  qpow g n * (1 + inject_Z (Z.of_nat n) * (1 - g)) <= 1.
Proof.
  intros Hg0 Hg1. induction n as [|n IH].
  - change (qpow g 0) with 1. change (inject_Z (Z.of_nat 0)) with 0. lra.
  - rewrite Nat2Z.inj_succ, <- Z.add_1_r, inject_Z_plus. cbn [qpow].
    change (inject_Z 1) with 1.
    pose proof (qpow_nonneg g n Hg0) as Hp.
    assert (Hk : 0 <= inject_Z (Z.of_nat n)).
    { change 0 with (inject_Z 0). rewrite <- Zle_Qle. lia. }
    set (k := inject_Z (Z.of_nat n)) in *. set (p := qpow g n) in *.
    assert (Hsq : 0 <= (k + 1) * ((1 - g) * (1 - g))).
    { apply Qmult_le_0_compat; [lra|]. apply Qmult_le_0_compat; lra. }
    assert (Heq : 1 + k * (1 - g) - g * (1 + (k + 1) * (1 - g))
                  == (k + 1) * ((1 - g) * (1 - g))) by ring.
    assert (Hstep : g * (1 + (k + 1) * (1 - g)) <= 1 + k * (1 - g)) by lra.
    assert (Hpos : 0 <= 1 + k * (1 - g)) by nra.
    assert (p * (g * (1 + (k + 1) * (1 - g))) <= p * (1 + k * (1 - g))) by nra.
    assert (Hre : g * p * (1 + (k + 1) * (1 - g)) == p * (g * (1 + (k + 1) * (1 - g))))
      by ring.
    rewrite Hre. lra.
Qed.

(** A geometric sequence of ratio below 1 falls below any positive bound. *)
Lemma qpow_small (g D theta : Q) :
  0 <= g → g < 1 → 0 <= D → 0 < theta → ∃ n, qpow g n * D < theta.
Proof.
  intros Hg0 Hg1 HD Htheta.
  set (x := D / (theta * (1 - g))).
  assert (Hx : 0 <= x).
  { unfold x. apply Qle_shift_div_l; nra. }
  exists (Z.to_nat (Qfloor x + 1)).
  pose proof (Qlt_floor x) as Hfl.
  assert (Hfl0 : (0 <= Qfloor x + 1)%Z).
  { rewrite Zle_Qle. change (inject_Z 0) with 0. lra. }
  pose proof (qpow_bernoulli g (Z.to_nat (Qfloor x + 1)) Hg0 ltac:(lra)) as Hb.
  rewrite Z2Nat.id in Hb by done.
  pose proof (qpow_nonneg g (Z.to_nat (Qfloor x + 1)) Hg0) as Hp.
  set (k := inject_Z (Qfloor x + 1)) in *.
  set (p := qpow g (Z.to_nat (Qfloor x + 1))) in *.
  assert (HxD : x * (theta * (1 - g)) == D).
  { unfold x. field. nra. }
  assert (Hxk : x * (theta * (1 - g)) < k * (theta * (1 - g))).
  { apply Qmult_lt_compat_r; [nra | done]. }
  set (M := 1 + k * (1 - g)) in *.
  assert (HDM : D < theta * M) by (unfold M; nra).
  destruct (Qlt_le_dec 0 p) as [Hp0|Hp0].
  - assert (p * D < p * (theta * M)) by (apply Qmult_lt_l; done).
    assert (theta * (p * M) <= theta * 1) by (apply Qmult_le_l; done).
    assert (p * (theta * M) == theta * (p * M)) by ring.
    lra.
  - assert (p == 0) by lra. nra.
Qed.

(** A finite family of differences has a bound. *)
Lemma bound_exists (f h : state → Q) (l : list state) :
  ∃ D, 0 <= D ∧ ∀ s, s ∈ l → Qabs (f s - h s) <= D.
Proof.
  induction l as [|x l (D & HD & Hl)].
  - exists 0. split; [lra|]. by intros s ?%elem_of_nil.
  - exists (D + Qabs (f x - h x)). pose proof (Qabs_nonneg (f x - h x)).
    split; [lra|]. intros s [->|Hs]%elem_of_cons; [lra|].
    specialize (Hl s Hs). lra.
Qed.

Section Lipschitz.

Context (gamma : Q).

Lemma exp_value_lipschitz (rs : gmap state Q) (f h : state → Q) (d : dist) (D : Q) :
  Forall (fun kv => 0 <= kv.2) d →
  (∀ kv, kv ∈ d → Qabs (f kv.1 - h kv.1) <= D) →
  Qabs (exp_value gamma rs f d - exp_value gamma rs h d)
  <= Qabs gamma * D * dist_sum d.
Proof.
  induction d as [|[s' p] d IH]; intros Hnn Hd.
  - change (Qabs 0 <= Qabs gamma * D * 0). change (Qabs 0) with 0. lra.
  - apply Forall_cons in Hnn as [Hp Hnn]. cbn in Hp.
    rewrite !exp_value_cons, dist_sum_cons. cbn [snd].
    specialize (IH Hnn ltac:(intros kv Hkv; apply Hd; by right)).
    specialize (Hd (s', p) ltac:(left)). cbn [fst] in Hd.
    pose proof (Qabs_nonneg gamma) as Hg.
    set (r := default 0 (rs !! s')) in *.
    set (X := exp_value gamma rs f d) in *. set (Y := exp_value gamma rs h d) in *.
    assert (Hprod : Qabs (gamma * (f s' - h s')) <= Qabs gamma * D).
    { rewrite Qabs_Qmult. pose proof (Qabs_nonneg (f s' - h s')). nra. }
    apply Qabs_Qle_condition in IH, Hprod. apply Qabs_Qle_condition.
    set (G := Qabs gamma) in *. set (S := dist_sum d) in *.
    set (t := gamma * (f s' - h s')) in *.
    assert (Heq : p * (r + gamma * f s') + X - (p * (r + gamma * h s') + Y)
                  == p * t + (X - Y)) by (unfold t; ring).
    rewrite Heq. split; nra.
Qed.

End Lipschitz.

Lemma val_insert (V : gmap state num) (s : state) (q : Q) :
  val (<[s := Fin q]> V) s = q.
Proof. unfold val. by rewrite lookup_insert_eq. Qed.

Lemma val_lookup (V W : gmap state num) (s : state) :
  V !! s = W !! s → val V s = val W s.
Proof. unfold val. by intros ->. Qed.

Lemma val_Fin (V : gmap state num) (s : state) (q : Q) :
  V !! s = Some (Fin q) → val V s = q.
Proof. unfold val. by intros ->. Qed.

(** Two maxima over the same actions differ by no more than the values do. *)
Lemma max_close (acts : list action) (x y : action → Q) (E m m' : Q)
    (a a' : action) :
  a ∈ acts → a' ∈ acts →
  m == x a → (∀ b, b ∈ acts → x b <= m) →
  m' == y a' → (∀ b, b ∈ acts → y b <= m') →
  (∀ b, b ∈ acts → Qabs (x b - y b) <= E) →
  Qabs (m - m') <= E.
Proof.
  intros Ha Ha' Hm Hmax Hm' Hmax' Hclose.
  pose proof (Hclose a Ha) as H1. pose proof (Hclose a' Ha') as H2.
  apply Qabs_Qle_condition in H1, H2. apply Qabs_Qle_condition.
  pose proof (Hmax a' Ha'). pose proof (Hmax' a Ha). lra.
Qed.

Section Contraction.

Context (pages : list state)
        (P : gmap state (gmap action dist))
        (R : gmap state (gmap action (gmap state Q)))
        (actions : gmap state (list action))
        (terminal_reward : gmap state (option num)) (gamma : Q).

Hypothesis Hshape : mdp_shape pages P R actions terminal_reward.
Hypothesis Hsub : substochastic pages P actions terminal_reward.
Hypothesis Hgamma : Qabs gamma < 1.

Local Abbreviation visit := (vi_visit P R actions terminal_reward gamma).
Local Abbreviation qval := (qvalue P R gamma).

(** [f] and [h] differ by at most [D] on every page. *)
Definition within (D : Q) (f h : state → Q) : Prop :=
  ∀ s, s ∈ pages → Qabs (f s - h s) <= D.

Lemma qvalue_lipschitz (f h : state → Q) (D : Q) (s : state)
    (acts : list action) (a : action) :
  s ∈ pages → terminal_reward !! s = Some None →
  actions !! s = Some acts → a ∈ acts →
  0 <= D → within D f h →
  Qabs (qval f s a - qval h s a) <= Qabs gamma * D.
Proof.
  intros Hs Htr Hacts Ha HD Hfh.
  destruct (shape_successors _ _ _ _ _ Hshape s acts a Hs Htr Hacts Ha)
    as (d & rs & HP & HR & Hd).
  destruct (Hsub s acts a d Hs Htr Hacts Ha HP) as [Hnn Hsum].
  unfold qvalue. rewrite HP, HR.
  pose proof (exp_value_lipschitz gamma rs f h d D Hnn) as Hlip.
  specialize (Hlip ltac:(intros kv Hkv; apply Hfh; by apply Hd)).
  pose proof (Qabs_nonneg gamma).
  assert (HGD : 0 <= Qabs gamma * D) by (apply Qmult_le_0_compat; done).
  set (GD := Qabs gamma * D) in *. nra.
Qed.

(** One visit of the same page from two stores that are within [D] leaves
    the page within [|gamma| * D]. *)
Lemma vi_visit_contract (st1 st2 a1 a2 : vi_vars) (x : state) (D : Q) :
  x ∈ pages → finite_on pages (vi_V st1) → finite_on pages (vi_V st2) →
  0 <= D → within D (val (vi_V st1)) (val (vi_V st2)) →
  visit st1 x = Ok a1 → visit st2 x = Ok a2 →
  Qabs (val (vi_V a1) x - val (vi_V a2) x) <= Qabs gamma * D.
Proof.
  intros Hx HV1 HV2 HD Hwithin.
  pose proof (Qabs_nonneg gamma) as Hg.
  destruct (shape_terminal _ _ _ _ _ Hshape x Hx) as [[r|] Htr].
  - destruct (shape_rewards _ _ _ _ _ Hshape x r Hx Htr) as [q ->].
    rewrite !(vi_visit_terminal _ _ _ _ _ _ _ _ Htr). intros [= <-] [= <-].
    cbn [vi_V]. rewrite !val_insert.
    assert (E : q - q == 0) by ring. rewrite E. change (Qabs 0) with 0. nra.
  - destruct (shape_actions _ _ _ _ _ Hshape x Hx Htr) as (acts & Hacts & _).
    destruct (vi_visit_shape pages P R actions terminal_reward gamma Hshape
                st1 x acts Hx Htr Hacts HV1)
      as (m1 & b1 & old1 & _ & -> & Hb1 & Hm1 & Hmax1).
    destruct (vi_visit_shape pages P R actions terminal_reward gamma Hshape
                st2 x acts Hx Htr Hacts HV2)
      as (m2 & b2 & old2 & _ & -> & Hb2 & Hm2 & Hmax2).
    intros [= <-] [= <-]. cbn [vi_V]. rewrite !val_insert.
    apply (max_close acts (qval (val (vi_V st1)) x) (qval (val (vi_V st2)) x)
             (Qabs gamma * D) m1 m2 b1 b2); try done.
    intros b Hb. by apply (qvalue_lipschitz _ _ D x acts b).
Qed.

Lemma vi_visit_within (st1 st2 a1 a2 : vi_vars) (x : state) (D : Q) :
  x ∈ pages → finite_on pages (vi_V st1) → finite_on pages (vi_V st2) →
  0 <= D → within D (val (vi_V st1)) (val (vi_V st2)) →
  visit st1 x = Ok a1 → visit st2 x = Ok a2 →
  within D (val (vi_V a1)) (val (vi_V a2)).
Proof.
  intros Hx HV1 HV2 HD Hwithin H1 H2 s Hs.
  destruct (decide (x = s)) as [<-|Hne].
  - pose proof (vi_visit_contract st1 st2 a1 a2 x D Hx HV1 HV2 HD Hwithin H1 H2).
    pose proof (Qabs_nonneg gamma). nra.
  - destruct (vi_visit_frame _ _ _ _ _ _ _ _ _ H1 Hne) as [E1 _].
    destruct (vi_visit_frame _ _ _ _ _ _ _ _ _ H2 Hne) as [E2 _].
    rewrite (val_lookup _ _ _ E1), (val_lookup _ _ _ E2). by apply Hwithin.
Qed.

(** The same loop over pages from two stores that are within [D]: the
    stores stay within [D], and the visited pages end within
    [|gamma| * D]. *)
Lemma vi_for_each_contract (l : list state) (st1 st2 st1' st2' : vi_vars) (D : Q) :
  l ⊆ pages → finite_on pages (vi_V st1) → finite_on pages (vi_V st2) →
  0 <= D → within D (val (vi_V st1)) (val (vi_V st2)) →
  for_each visit st1 l = Ok st1' → for_each visit st2 l = Ok st2' →
  within D (val (vi_V st1')) (val (vi_V st2')) ∧
  ∀ s, s ∈ l → Qabs (val (vi_V st1') s - val (vi_V st2') s) <= Qabs gamma * D.
Proof.
  intros Hl HV1 HV2 HD. revert st1 st2 HV1 HV2.
  induction l as [|x l IH]; intros st1 st2 HV1 HV2 Hwithin.
  - intros [= <-] [= <-]. split; [done|]. by intros s ?%elem_of_nil.
  - cbn [for_each]. intros (a1 & H1 & Hrest1)%bind_Ok (a2 & H2 & Hrest2)%bind_Ok.
    assert (Hx : x ∈ pages) by (apply Hl; left).
    assert (Hl' : l ⊆ pages) by (intros y Hy; apply Hl; by right).
    destruct (vi_visit_progress pages P R actions terminal_reward gamma Hshape
                st1 x Hx HV1) as (a1' & H1' & HVa1).
    destruct (vi_visit_progress pages P R actions terminal_reward gamma Hshape
                st2 x Hx HV2) as (a2' & H2' & HVa2).
    assert (a1' = a1) as -> by congruence. assert (a2' = a2) as -> by congruence.
    pose proof (vi_visit_within st1 st2 a1 a2 x D Hx HV1 HV2 HD Hwithin H1 H2)
      as Hwithin'.
    destruct (IH Hl' a1 a2 HVa1 HVa2 Hwithin' Hrest1 Hrest2) as [Hend Hvisited].
    split; [done|]. intros s Hs.
    destruct (decide (s ∈ l)) as [Hin|Hnotin]; [by apply Hvisited|].
    assert (s = x) as -> by (apply elem_of_cons in Hs as [->|?]; done).
    destruct (vi_for_each_frame P R actions terminal_reward gamma l a1 st1' x
                Hrest1 Hnotin) as [E1 _].
    destruct (vi_for_each_frame P R actions terminal_reward gamma l a2 st2' x
                Hrest2 Hnotin) as [E2 _].
    rewrite (val_lookup _ _ _ E1), (val_lookup _ _ _ E2).
    by apply (vi_visit_contract st1 st2 a1 a2 x D).
Qed.

End Contraction.

Lemma pymax_Fin (a b : Q) :
  pymax (Fin a) (Fin b) = Fin (if Qltb a b then b else a).
Proof. unfold pymax, ngt, nlt. by destruct (Qltb a b). Qed.

Section Delta.

Context (pages : list state)
        (P : gmap state (gmap action dist))
        (R : gmap state (gmap action (gmap state Q)))
        (actions : gmap state (list action))
        (terminal_reward : gmap state (option num)) (gamma : Q).

Hypothesis Hshape : mdp_shape pages P R actions terminal_reward.

Local Abbreviation visit := (vi_visit P R actions terminal_reward gamma).

(** [delta] after a loop over pages without repetition: it is a finite
    number, it dominates the change of every decision page visited, and it
    is no more than any bound on the changes of the pages visited. *)
Lemma vi_for_each_delta (l : list state) (st st' : vi_vars) (d0 : Q) :
  NoDup l → l ⊆ pages → finite_on pages (vi_V st) →
  vi_delta st = Fin d0 →
  for_each visit st l = Ok st' →
  ∃ d, vi_delta st' = Fin d ∧ d0 <= d ∧
    (∀ s, s ∈ l → terminal_reward !! s = Some None →
       Qabs (val (vi_V st) s - val (vi_V st') s) <= d) ∧
    (∀ B, d0 <= B →
       (∀ s, s ∈ l → Qabs (val (vi_V st) s - val (vi_V st') s) <= B) → d <= B).
Proof.
  intros Hnodup Hl. revert st d0.
  induction l as [|x l IH]; intros st d0 HV Hd0.
  - intros [= <-]. exists d0. split; [done|]. split; [lra|]. split.
    + by intros s ?%elem_of_nil.
    + intros B HB _. done.
  - cbn [for_each]. intros (a1 & H1 & Hrest)%bind_Ok.
    apply NoDup_cons in Hnodup as [Hx Hnodup].
    assert (Hxp : x ∈ pages) by (apply Hl; left).
    assert (Hl' : l ⊆ pages) by (intros y Hy; apply Hl; by right).
    assert (Hframe : ∀ s, s ∈ l → val (vi_V a1) s = val (vi_V st) s).
    { intros s Hs. apply val_lookup.
      apply (vi_visit_frame _ _ _ _ _ _ _ _ _ H1). by intros ->. }
    assert (Hend : val (vi_V st') x = val (vi_V a1) x).
    { apply val_lookup.
      by apply (vi_for_each_frame P R actions terminal_reward gamma l a1 st' x). }
    destruct (shape_terminal _ _ _ _ _ Hshape x Hxp) as [[r|] Htr].
    + destruct (shape_rewards _ _ _ _ _ Hshape x r Hxp Htr) as [q ->].
      rewrite (vi_visit_terminal _ _ _ _ _ _ _ _ Htr) in H1. injection H1 as H1.
      assert (HVa1 : finite_on pages (vi_V a1))
        by (rewrite <- H1; by apply finite_on_insert).
      assert (Hda1 : vi_delta a1 = Fin d0) by (by rewrite <- H1).
      destruct (IH Hnodup Hl' a1 d0 HVa1 Hda1 Hrest)
        as (d & Hd & Hge & Hlow & Hup).
      exists d. split; [done|]. split; [done|]. split.
      * intros s [->|Hs]%elem_of_cons Hs'; [congruence|].
        rewrite <- (Hframe s Hs). by apply Hlow.
      * intros B HB Hall. apply Hup; [done|]. intros s Hs.
        rewrite (Hframe s Hs). apply Hall. by right.
    + destruct (shape_actions _ _ _ _ _ Hshape x Hxp Htr) as (acts & Hacts & _).
      destruct (vi_visit_shape pages P R actions terminal_reward gamma Hshape
                  st x acts Hxp Htr Hacts HV)
        as (m & b & old & Hold & Hvisit & _).
      rewrite Hvisit, Hd0, pymax_Fin in H1. injection H1 as H1.
      set (c := Qabs (Qred (old - m))) in *.
      set (d1 := if Qltb d0 c then c else d0) in *.
      assert (HVa1 : finite_on pages (vi_V a1))
        by (rewrite <- H1; by apply finite_on_insert).
      assert (Hda1 : vi_delta a1 = Fin d1) by (by rewrite <- H1).
      assert (Hxa1 : val (vi_V a1) x = m) by (rewrite <- H1; apply val_insert).
      assert (Hd1 : d0 <= d1 ∧ c <= d1 ∧ (d1 = c ∨ d1 = d0)).
      { unfold d1. destruct (Qltb d0 c) eqn:Hlt.
        - apply Qltb_lt in Hlt. split; [lra|]. split; [lra | by left].
        - apply Qltb_ge in Hlt. split; [lra|]. split; [lra | by right]. }
      destruct Hd1 as (Hd01 & Hc1 & Hcases).
      destruct (IH Hnodup Hl' a1 d1 HVa1 Hda1 Hrest)
        as (d & Hd & Hge & Hlow & Hup).
      assert (Hc : Qabs (val (vi_V st) x - val (vi_V st') x) == c).
      { rewrite Hend, Hxa1, (val_Fin _ _ _ Hold).
        unfold c. by rewrite Qred_correct. }
      exists d. split; [done|]. split; [lra|]. split.
      * intros s [->|Hs]%elem_of_cons Hs'; [rewrite Hc; lra|].
        rewrite <- (Hframe s Hs). by apply Hlow.
      * intros B HB Hall. apply Hup.
        -- pose proof (Hall x ltac:(left)) as Hxb. rewrite Hc in Hxb.
           destruct Hcases as [-> | ->]; done.
        -- intros s Hs. rewrite (Hframe s Hs). apply Hall. by right.
Qed.

End Delta.

Section Termination.

Context (pages : list state)
        (P : gmap state (gmap action dist))
        (R : gmap state (gmap action (gmap state Q)))
        (actions : gmap state (list action))
        (terminal_reward : gmap state (option num)) (gamma theta : Q).

Hypothesis Hnodup : NoDup pages.
Hypothesis Hshape : mdp_shape pages P R actions terminal_reward.
Hypothesis Hsub : substochastic pages P actions terminal_reward.
Hypothesis Hgamma : Qabs gamma < 1.
Hypothesis Htheta : 0 < theta.

Local Abbreviation sweep := (vi_sweep pages P R actions terminal_reward gamma).
Local Abbreviation sweeps := (vi_sweeps pages P R actions terminal_reward gamma).
Local Abbreviation close := (within pages).

Lemma vi_sweep_progress V policy :
  finite_on pages V →
  ∃ st, sweep V policy = Ok st ∧ finite_on pages (vi_V st).
Proof.
  intros HV. by apply (vi_for_each_progress pages P R actions terminal_reward gamma).
Qed.

Lemma vi_sweeps_progress (n : nat) V policy :
  finite_on pages V →
  ∃ V' policy', sweeps n V policy = Ok (V', policy') ∧ finite_on pages V'.
Proof.
  revert V policy. induction n as [|n IH]; intros V policy HV; [by eauto|].
  destruct (vi_sweep_progress V policy HV) as (st & Hst & HV').
  destruct (IH (vi_V st) (vi_policy st) HV') as (V' & policy' & Hrun & HV'').
  exists V', policy'. cbn [vi_sweeps]. rewrite Hst. done.
Qed.

(** Sweep [n + 1] is one sweep after sweep [n]. *)
Lemma vi_sweeps_succ (n : nat) V policy V' policy' st :
  sweeps n V policy = Ok (V', policy') → sweep V' policy' = Ok st →
  sweeps (S n) V policy = Ok (vi_V st, vi_policy st).
Proof.
  revert V policy. induction n as [|n IH]; intros V policy.
  - intros [= <- <-] Hst. cbn [vi_sweeps]. by rewrite Hst.
  - cbn [vi_sweeps]. intros (st1 & Hst1 & Hrest)%bind_Ok Hst.
    rewrite Hst1. cbn [mbind result_bind]. by apply IH.
Qed.

(** A sweep brings two stores closer by the factor [|gamma|]. *)
Lemma vi_sweep_contract V1 policy1 V2 policy2 st1 st2 (D : Q) :
  finite_on pages V1 → finite_on pages V2 → 0 <= D →
  close D (val V1) (val V2) →
  sweep V1 policy1 = Ok st1 → sweep V2 policy2 = Ok st2 →
  close (Qabs gamma * D) (val (vi_V st1)) (val (vi_V st2)).
Proof.
  intros HV1 HV2 HD Hclose H1 H2.
  by destruct (vi_for_each_contract pages P R actions terminal_reward gamma
                 Hshape Hsub Hgamma pages
                 (ViVars V1 policy1 (Fin 0)) (ViVars V2 policy2 (Fin 0)) st1 st2 D)
    as [_ ?].
Qed.

Lemma vi_sweeps_contract (n : nat) V1 policy1 V2 policy2 V1' policy1' V2' policy2'
    (D : Q) :
  finite_on pages V1 → finite_on pages V2 → 0 <= D →
  close D (val V1) (val V2) →
  sweeps n V1 policy1 = Ok (V1', policy1') →
  sweeps n V2 policy2 = Ok (V2', policy2') →
  close (qpow (Qabs gamma) n * D) (val V1') (val V2').
Proof.
  revert V1 policy1 V2 policy2 D.
  induction n as [|n IH]; intros V1 policy1 V2 policy2 D HV1 HV2 HD Hclose.
  - intros [= <- <-] [= <- <-] s Hs. cbn [qpow]. specialize (Hclose s Hs). lra.
  - cbn [vi_sweeps]. intros (st1 & H1 & Hrest1)%bind_Ok (st2 & H2 & Hrest2)%bind_Ok.
    destruct (vi_sweep_progress V1 policy1 HV1) as (st1' & H1' & HVst1).
    destruct (vi_sweep_progress V2 policy2 HV2) as (st2' & H2' & HVst2).
    assert (st1' = st1) as -> by congruence. assert (st2' = st2) as -> by congruence.
    pose proof (Qabs_nonneg gamma) as Hg.
    pose proof (vi_sweep_contract V1 policy1 V2 policy2 st1 st2 D HV1 HV2 HD
                  Hclose H1 H2) as Hstep.
    assert (HD' : 0 <= Qabs gamma * D) by (apply Qmult_le_0_compat; done).
    pose proof (IH _ _ _ _ (Qabs gamma * D) HVst1 HVst2 HD' Hstep Hrest1 Hrest2)
      as Hn.
    intros s Hs. specialize (Hn s Hs). cbn [qpow].
    assert (Heq : Qabs gamma * qpow (Qabs gamma) n * D
                  == qpow (Qabs gamma) n * (Qabs gamma * D)) by ring.
    by rewrite Heq.
Qed.

(** Some sweep ends with [delta < theta]. *)
Lemma vi_some_sweep_meets_theta :
  ∃ n V policy st,
    sweeps n (zero_values pages) ∅ = Ok (V, policy) ∧
    sweep V policy = Ok st ∧ nlt (vi_delta st) (Fin theta) = true.
Proof.
  pose proof (finite_on_zero_values pages) as HV0.
  destruct (vi_sweep_progress (zero_values pages) ∅ HV0) as (st1 & Hst1 & HV1).
  destruct (bound_exists (val (zero_values pages)) (val (vi_V st1)) pages)
    as (D & HD & Hclose).
  pose proof (Qabs_nonneg gamma) as Hg.
  destruct (qpow_small (Qabs gamma) D theta Hg Hgamma HD Htheta) as [n Hn].
  destruct (vi_sweeps_progress n (zero_values pages) ∅ HV0)
    as (Vn & policyn & Hrun & HVn).
  destruct (vi_sweep_progress Vn policyn HVn) as (st & Hst & HVst).
  exists n, Vn, policyn, st. split; [done|]. split; [done|].
  assert (Hrun' : sweeps n (vi_V st1) (vi_policy st1) = Ok (vi_V st, vi_policy st)).
  { pose proof (vi_sweeps_succ n _ _ _ _ st Hrun Hst) as Hsucc.
    cbn [vi_sweeps] in Hsucc. rewrite Hst1 in Hsucc. exact Hsucc. }
  pose proof (vi_sweeps_contract n _ _ _ _ _ _ _ _ D HV0 HV1 HD Hclose Hrun Hrun')
    as Hclose_n.
  destruct (vi_for_each_delta pages P R actions terminal_reward gamma Hshape
              pages (ViVars Vn policyn (Fin 0)) st 0 Hnodup ltac:(done) HVn
              eq_refl Hst) as (d & Hd & _ & _ & Hup).
  rewrite Hd. cbn [nlt]. apply Qltb_lt.
  assert (d <= qpow (Qabs gamma) n * D); [|lra].
  apply Hup.
  - pose proof (qpow_nonneg (Qabs gamma) n Hg). by apply Qmult_le_0_compat.
  - intros s Hs. by apply Hclose_n.
Qed.

(** [value_iteration] returns. *)
Lemma value_iteration_returns :
  ∃ n V policy,
    value_iteration pages P R actions terminal_reward gamma theta n
    = Some (Ok (V, policy)).
Proof.
  destruct vi_some_sweep_meets_theta as (n & Vn & policyn & st & Hrun & Hst & Hlt).
  exists (S n).
  destruct (value_iteration pages P R actions terminal_reward gamma theta (S n))
    as [[[V policy]|e]|] eqn:Hvi.
  - by exists V, policy.
  - exfalso. unfold value_iteration in Hvi.
    by apply (vi_loop_no_raise pages P R actions terminal_reward gamma theta Hshape)
      in Hvi; [|apply finite_on_zero_values].
  - exfalso. unfold value_iteration in Hvi.
    apply (proj1 (vi_loop_None_iff _ _ _ _ _ _ _ _ _ _)) with (k := n) in Hvi; [|lia].
    destruct Hvi as (V' & policy' & st' & Hrun' & Hst' & Hmiss). congruence.
Qed.

End Termination.

(** More fuel does not change a run that has ended. *)
Lemma vi_loop_fuel_mono pages P R actions terminal_reward gamma theta
    (n m : nat) V policy outcome :
  vi_loop pages P R actions terminal_reward gamma theta n V policy = Some outcome →
  (n <= m)%nat →
  vi_loop pages P R actions terminal_reward gamma theta m V policy = Some outcome.
Proof.
  revert m V policy. induction n as [|n IH]; intros m V policy; [done|].
  intros Hrun Hm. destruct m as [|m]; [lia|]. cbn [vi_loop] in *.
  destruct (vi_sweep pages P R actions terminal_reward gamma V policy) as [st|e];
    [|done].
  destruct (nlt (vi_delta st) (Fin theta)); [done|]. apply IH; [done | lia].
Qed.

(** A run that comes back to a pair of stores it alternates between, with a
    [delta] that is never below [theta], never ends. *)
Lemma vi_loop_two_cycle pages P R actions terminal_reward gamma theta
    V1 policy1 V2 policy2 delta12 delta21 :
  vi_sweep pages P R actions terminal_reward gamma V1 policy1
    = Ok (ViVars V2 policy2 delta12) →
  vi_sweep pages P R actions terminal_reward gamma V2 policy2
    = Ok (ViVars V1 policy1 delta21) →
  nlt delta12 (Fin theta) = false → nlt delta21 (Fin theta) = false →
  ∀ fuel,
    vi_loop pages P R actions terminal_reward gamma theta fuel V1 policy1 = None ∧
    vi_loop pages P R actions terminal_reward gamma theta fuel V2 policy2 = None.
Proof.
  intros H12 H21 Hd12 Hd21 fuel. induction fuel as [|fuel [IH1 IH2]]; [done|].
  cbn [vi_loop]. rewrite H12, H21. cbn [vi_delta vi_V vi_policy].
  by rewrite Hd12, Hd21.
Qed.

(** The input contract of the solvers: pages without repetition, a
    well-shaped model, and for every action of a decision page non-negative
    probabilities that sum to 1. *)
Record well_formed (pages : list state) (P : gmap state (gmap action dist))
    (R : gmap state (gmap action (gmap state Q)))
    (actions : gmap state (list action))
    (terminal_reward : gmap state (option num)) : Prop := WellFormed {
  wf_nodup : NoDup pages;
  wf_shape : mdp_shape pages P R actions terminal_reward;
  wf_distributions : ∀ s acts a d, s ∈ pages →
    terminal_reward !! s = Some None → actions !! s = Some acts → a ∈ acts →
    P !! s ≫= (.!! a) = Some d →
    Forall (fun kv => 0 <= kv.2) d ∧ dist_sum d == 1;
}.

Lemma well_formed_substochastic pages P R actions terminal_reward :
  well_formed pages P R actions terminal_reward →
  substochastic pages P actions terminal_reward.
Proof.
  intros Hwf s acts a d Hs Htr Hacts Ha HP.
  destruct (wf_distributions _ _ _ _ _ Hwf s acts a d Hs Htr Hacts Ha HP) as [? Hsum].
  split; [done|]. rewrite Hsum. lra.
Qed.

Lemma Qabs_lt_1 (gamma : Q) : -1 < gamma → gamma < 1 → Qabs gamma < 1.
Proof. intros H1 H2. apply Qabs_Qlt_condition. split; lra. Qed.

(** C7.  [value_iteration] terminates on every well-formed model when
    [0 <= gamma < 1] and [theta > 0]: some sweep ends with a [delta] below
    [theta], and with enough fuel the function returns its result.  (Over
    the exact arithmetic of this model.) *)
Theorem value_iteration_terminates
    (pages : list state)
    (P : gmap state (gmap action dist))
    (R : gmap state (gmap action (gmap state Q)))
    (actions : gmap state (list action))
    (terminal_reward : gmap state (option num)) (gamma theta : Q) :
  well_formed pages P R actions terminal_reward →
  0 <= gamma → gamma < 1 → 0 < theta →
  (∃ n V policy st,
     vi_sweeps pages P R actions terminal_reward gamma n (zero_values pages) ∅
       = Ok (V, policy) ∧
     vi_sweep pages P R actions terminal_reward gamma V policy = Ok st ∧
     nlt (vi_delta st) (Fin theta) = true) ∧
  (∃ n V policy, ∀ fuel, (n <= fuel)%nat →
     value_iteration pages P R actions terminal_reward gamma theta fuel
     = Some (Ok (V, policy))).
Proof.
  intros Hwf Hlo Hhi Htheta.
  assert (Hgamma : Qabs gamma < 1) by (apply Qabs_lt_1; lra).
  pose proof (well_formed_substochastic _ _ _ _ _ Hwf) as Hsub.
  split.
  - by apply vi_some_sweep_meets_theta; [apply Hwf | apply Hwf | | |].
  - destruct (value_iteration_returns pages P R actions terminal_reward gamma theta
                (wf_nodup _ _ _ _ _ Hwf) (wf_shape _ _ _ _ _ Hwf) Hsub Hgamma Htheta)
      as (n & V & policy & Hrun).
    exists n, V, policy. intros fuel Hfuel. by eapply vi_loop_fuel_mono.
Qed.

(** Case analysis on the member of a concrete list. *)
Ltac list_cases H :=
  repeat (apply elem_of_cons in H as [->|H]); [..|by apply elem_of_nil in H].

Lemma Growing_well_formed :
  well_formed Growing.pages Growing.P Growing.R Growing.actions
    Growing.terminal_reward.
Proof.
  split; [apply NoDup_singleton | split |].
  - intros s Hs. list_cases Hs. by eexists.
  - intros s r Hs Hr. list_cases Hs. by vm_compute in Hr.
  - intros s Hs _. list_cases Hs. by eexists.
  - intros s acts a Hs _ Hacts Ha. list_cases Hs.
    vm_compute in Hacts. injection Hacts as <-. list_cases Ha.
    eexists _, _. split; [reflexivity|]. split; [reflexivity|].
    intros kv Hkv. list_cases Hkv. split; [left | by eexists].
  - intros s acts a d Hs _ Hacts Ha HP. list_cases Hs.
    vm_compute in Hacts. injection Hacts as <-. list_cases Ha.
    vm_compute in HP. injection HP as <-. split; [|reflexivity].
    repeat constructor. discriminate.
Qed.

Lemma TwoState_well_formed :
  well_formed TwoState.pages TwoState.P TwoState.R TwoState.actions
    TwoState.terminal_reward.
Proof.
  split; [|split|].
  - apply NoDup_cons. split; [|apply NoDup_singleton].
    by intros [=]%list_elem_of_singleton.
  - intros s Hs. list_cases Hs; by eexists.
  - intros s r Hs Hr. list_cases Hs; [by vm_compute in Hr|].
    vm_compute in Hr. injection Hr as <-. by eexists.
  - intros s Hs Htr. list_cases Hs; [by eexists | by vm_compute in Htr].
  - intros s acts a Hs Htr Hacts Ha. list_cases Hs; [|by vm_compute in Htr].
    vm_compute in Hacts. injection Hacts as <-. list_cases Ha.
    eexists _, _. split; [reflexivity|]. split; [reflexivity|].
    intros kv Hkv. list_cases Hkv.
    + split; [right; left | by eexists].
    + split; [left | by eexists].
  - intros s acts a d Hs Htr Hacts Ha HP. list_cases Hs; [|by vm_compute in Htr].
    vm_compute in Hacts. injection Hacts as <-. list_cases Ha.
    vm_compute in HP. injection HP as <-. split; [|reflexivity].
    repeat constructor; discriminate.
Qed.

(** With [gamma = -1] the one-page model of [Growing] alternates between
    [V[s] = 1] and [V[s] = 0]. *)
Module Oscillating.
Definition V_one : gmap state num := {[ "s" := Fin 1 ]}.
Definition V_zero : gmap state num := {[ "s" := Fin 0 ]}.
Definition policy : gmap state action := {[ "s" := Some "s" ]}.
End Oscillating.

Lemma Oscillating_first_sweep :
  vi_sweep Growing.pages Growing.P Growing.R Growing.actions
    Growing.terminal_reward (-1) (zero_values Growing.pages) ∅
  = Ok (ViVars Oscillating.V_one Oscillating.policy (Fin 1)).
Proof. vm_compute. reflexivity. Qed.

Lemma Oscillating_sweep_down :
  vi_sweep Growing.pages Growing.P Growing.R Growing.actions
    Growing.terminal_reward (-1) Oscillating.V_one Oscillating.policy
  = Ok (ViVars Oscillating.V_zero Oscillating.policy (Fin 1)).
Proof. vm_compute. reflexivity. Qed.

Lemma Oscillating_sweep_up :
  vi_sweep Growing.pages Growing.P Growing.R Growing.actions
    Growing.terminal_reward (-1) Oscillating.V_zero Oscillating.policy
  = Ok (ViVars Oscillating.V_one Oscillating.policy (Fin 1)).
Proof. vm_compute. reflexivity. Qed.

Lemma value_iteration_terminates_witness :
  ∃ n V policy, ∀ fuel, (n <= fuel)%nat →
    value_iteration TwoState.pages TwoState.P TwoState.R TwoState.actions
      TwoState.terminal_reward GAMMA THRESHOLD fuel = Some (Ok (V, policy)).
Proof.
  apply (value_iteration_terminates TwoState.pages TwoState.P TwoState.R
           TwoState.actions TwoState.terminal_reward GAMMA THRESHOLD).
  - apply TwoState_well_formed.
  - unfold GAMMA, Qle. simpl. lia.
  - reflexivity.
  - reflexivity.
Defined.

(** ** Dead ends *)

Section DeadEnd.

Context (pages : list state)
        (P : gmap state (gmap action dist))
        (R : gmap state (gmap action (gmap state Q)))
        (actions : gmap state (list action))
        (terminal_reward : gmap state (option num)) (gamma theta : Q) (s : state).

Hypothesis Htr : terminal_reward !! s = Some None.
Hypothesis Hacts : actions !! s = Some [None].
Hypothesis HP : P !! s = Some {[ None := [(s, 1)] ]}.
Hypothesis HR : R !! s = Some {[ None := {[ s := 0 ]} ]}.

Lemma dead_end_value : Qred (0 + Qred (1 * Qred (0 + Qred (gamma * 0)))) = 0.
Proof.
  change 0 with (Qred 0) at 4. apply Qred_complete.
  rewrite !Qred_correct. ring.
Qed.

Lemma dead_end_backup (V : gmap state num) :
  V !! s = Some (Fin 0) → backup P R gamma V s None = Ok (Fin 0).
Proof.
  intros HV. unfold backup. rewrite (getitem_lookup _ _ _ HP).
  cbn [mbind result_bind]. rewrite (getitem_lookup _ _ _ (lookup_singleton_eq _ _)).
  cbn [mbind result_bind for_each].
  rewrite (backup_step_finite R gamma V s None _ {[ s := 0 ]} 0 s 1 0 0 HR);
    [|apply lookup_singleton_eq..|done].
  by rewrite dead_end_value.
Qed.

(** A visit of the dead end leaves its value at 0 and stores the no-op. *)
Lemma dead_end_visit (st st' : vi_vars) :
  vi_V st !! s = Some (Fin 0) →
  vi_visit P R actions terminal_reward gamma st s = Ok st' →
  vi_V st' !! s = Some (Fin 0) ∧ vi_policy st' !! s = Some None.
Proof.
  intros HV. rewrite vi_visit_decision by done. unfold greedy.
  rewrite (getitem_lookup _ _ _ Hacts). cbn [mbind result_bind for_each].
  unfold greedy_step. rewrite (dead_end_backup _ HV). cbn [mbind result_bind fst].
  change (ngt (Fin 0) NegInf) with true. cbn [mbind result_bind].
  rewrite (getitem_lookup _ _ _ HV). cbn [mbind result_bind].
  intros [= <-]. cbn. by rewrite !lookup_insert_eq.
Qed.

Lemma dead_end_returned (fuel : nat) V policy :
  s ∈ pages →
  value_iteration pages P R actions terminal_reward gamma theta fuel
    = Some (Ok (V, policy)) →
  V !! s = Some (Fin 0) ∧ policy !! s = Some None.
Proof.
  intros Hs Hrun.
  apply (vi_loop_establish pages P R actions terminal_reward gamma theta
           (fun V _ => V !! s = Some (Fin 0))
           (fun V policy => V !! s = Some (Fin 0) ∧ policy !! s = Some None)
           s fuel (zero_values pages) ∅ V policy); try done.
  - intros x a a' Hv HV. destruct (decide (x = s)) as [->|Hne].
    + by destruct (dead_end_visit a a' HV Hv).
    + destruct (vi_visit_frame _ _ _ _ _ _ _ _ _ Hv Hne) as [HV' _]. congruence.
  - intros x a a' Hv [HV Hp]. destruct (decide (x = s)) as [->|Hne].
    + by apply (dead_end_visit a a').
    + destruct (vi_visit_frame _ _ _ _ _ _ _ _ _ Hv Hne) as [HV' Hp'].
      split; congruence.
  - intros a a'. intros Hv HV. by apply (dead_end_visit a a').
  - by apply zero_values_lookup.
Qed.

End DeadEnd.

(** C8.  Dead-end handling.  On pages, links and terminal rewards as
    [crawl_mdp] delivers them, [build_mdp] gives a non-terminal page [s]
    without outgoing links the single no-op action with [P = {s: 1.0}] and
    [R = {s: 0.0}]; every result that [value_iteration] returns on the model
    has [V[s] = 0] exactly and [policy[s] = None], whatever [gamma] and
    [theta] are; and it does return one when the terminal rewards are finite,
    [0 <= gamma < 1] and [theta > 0].  (Over the exact arithmetic of this
    model.) *)
Theorem dead_end_handling
    (pages : list state) (links : gmap state (list state))
    (terminal_reward : gmap state (option num)) (s : state) :
  crawled pages links terminal_reward →
  s ∈ pages →
  terminal_reward !! s = Some None →
  links !! s = Some [] →
  ∃ m, build_mdp pages links terminal_reward = Ok m ∧
    mdp_actions m !! s = Some [None] ∧
    mdp_P m !! s = Some {[ None := [(s, 1)] ]} ∧
    mdp_R m !! s = Some {[ None := {[ s := 0 ]} ]} ∧
    (∀ gamma theta fuel V policy,
       value_iteration pages (mdp_P m) (mdp_R m) (mdp_actions m) terminal_reward
         gamma theta fuel = Some (Ok (V, policy)) →
       V !! s = Some (Fin 0) ∧ policy !! s = Some None) ∧
    (∀ gamma theta,
       finite_rewards pages terminal_reward →
       0 <= gamma → gamma < 1 → 0 < theta →
       ∃ n V policy,
         V !! s = Some (Fin 0) ∧ policy !! s = Some None ∧
         ∀ fuel, (n <= fuel)%nat →
           value_iteration pages (mdp_P m) (mdp_R m) (mdp_actions m)
             terminal_reward gamma theta fuel = Some (Ok (V, policy))).
Proof.
  intros Hcrawled Hs Htr Hlinks.
  destruct (build_mdp_keys pages links terminal_reward Hcrawled)
    as (m & Hbuild & Hkeys & Hsub & _).
  destruct (build_mdp_ok pages links terminal_reward Hcrawled)
    as (m' & Hbuild' & Hentries & _).
  assert (m' = m) as -> by congruence.
  destruct (Hentries s Hs) as (e & He & HP & HR & Hacts).
  unfold page_entries in He.
  rewrite (getitem_lookup _ _ _ Hlinks), (getitem_lookup _ _ _ Htr) in He.
  cbn in He. injection He as <-. cbn [noop_entries fst snd] in HP, HR, Hacts.
  exists m. split; [done|]. split; [done|]. split; [done|]. split; [done|].
  assert (Hret : ∀ gamma theta fuel V policy,
       value_iteration pages (mdp_P m) (mdp_R m) (mdp_actions m) terminal_reward
         gamma theta fuel = Some (Ok (V, policy)) →
       V !! s = Some (Fin 0) ∧ policy !! s = Some None).
  { intros gamma theta fuel V policy.
    by apply (dead_end_returned pages _ _ _ terminal_reward gamma theta s). }
  split; [exact Hret|].
  intros gamma theta Hfinite Hlo Hhi Htheta.
  assert (Hgamma : Qabs gamma < 1) by (apply Qabs_lt_1; lra).
  destruct (value_iteration_returns pages (mdp_P m) (mdp_R m) (mdp_actions m)
              terminal_reward gamma theta (crawled_nodup _ _ _ Hcrawled)
              (mdp_keys_shape _ _ _ _ _ Hkeys Hfinite)
              Hsub Hgamma Htheta) as (n & V & policy & Hrun).
  destruct (Hret gamma theta n V policy Hrun) as [HV Hp].
  exists n, V, policy. split; [done|]. split; [done|].
  intros fuel Hfuel. by eapply vi_loop_fuel_mono.
Qed.

(** A page with one link, to a page without links. *)
Module DeadEndExample.
Definition pages : list state := ["a.html"; "d.html"].
Definition links : gmap state (list state) :=
  {[ "a.html" := ["d.html"]; "d.html" := [] ]}.
Definition terminal_reward : gmap state (option num) :=
  {[ "a.html" := None; "d.html" := None ]}.
Definition P : gmap state (gmap action dist) :=
  {[ "a.html" := {[ Some "d.html" := [("d.html", 0.90); ("a.html", 0.10)] ]};
     "d.html" := {[ None := [("d.html", 1)] ]} ]}.
Definition R : gmap state (gmap action (gmap state Q)) :=
  {[ "a.html" := {[ Some "d.html" := {[ "d.html" := -0.05; "a.html" := -0.05 ]} ]};
     "d.html" := {[ None := {[ "d.html" := 0 ]} ]} ]}.
Definition actions : gmap state (list action) :=
  {[ "a.html" := [Some "d.html"]; "d.html" := [None] ]}.
End DeadEndExample.

Lemma DeadEndExample_crawled :
  crawled DeadEndExample.pages DeadEndExample.links DeadEndExample.terminal_reward.
Proof.
  split.
  - apply NoDup_cons. split; [|apply NoDup_singleton].
    by intros [=]%list_elem_of_singleton.
  - intros s Hs. list_cases Hs.
    + exists ["d.html"]. split; [done|]. split; [apply NoDup_singleton|].
      intros l Hl. list_cases Hl. right. left.
    + exists []. split; [done|]. split; [constructor|]. by intros l ?%elem_of_nil.
  - intros s Hs. list_cases Hs; by eexists.
Qed.

Lemma DeadEndExample_built :
  build_mdp DeadEndExample.pages DeadEndExample.links DeadEndExample.terminal_reward
  = Ok (Mdp DeadEndExample.P DeadEndExample.R DeadEndExample.actions).
Proof. vm_compute. reflexivity. Qed.

Lemma dead_end_handling_witness :
  ∃ n V policy,
    V !! "d.html" = Some (Fin 0) ∧ policy !! "d.html" = Some None ∧
    ∀ fuel, (n <= fuel)%nat →
      value_iteration DeadEndExample.pages DeadEndExample.P DeadEndExample.R
        DeadEndExample.actions DeadEndExample.terminal_reward GAMMA THRESHOLD fuel
      = Some (Ok (V, policy)).
Proof.
  destruct (dead_end_handling DeadEndExample.pages DeadEndExample.links
              DeadEndExample.terminal_reward "d.html" DeadEndExample_crawled
              ltac:(right; left) eq_refl eq_refl)
    as (m & Hbuild & _ & _ & _ & _ & Hterm).
  rewrite DeadEndExample_built in Hbuild. injection Hbuild as <-.
  apply (Hterm GAMMA THRESHOLD).
  - intros s r Hs Hr. list_cases Hs; by vm_compute in Hr.
  - unfold GAMMA, Qle. simpl. lia.
  - reflexivity.
  - reflexivity.
Defined.
